(** * go-downloader: the chunked download engine

    A shallow embedding of the chunk planner, the per-chunk state, the
    worker pool, the retry coordinator and the merger of
    [internal/download] and [internal/utils], with the properties of the
    specification proved over it.

    Conventions.
    - Go's [int64] (and [int], taken as 64 bits wide as on amd64 and arm64)
      is a [Z] kept in the range [-2^63, 2^63) by [wrap64]; every arithmetic
      operation of the source is followed by that wrap-around.
    - A [*Chunk] is an address into a store of chunks ([gmap nat Chunk]); an
      address the store does not hold is a nil pointer and dereferencing it
      aborts the run.
    - The file system is a flat finite map from paths to contents.
    - What the network answers to one ranged request is not decided by the
      program: it is the label of the step that performs the request.
    - The goroutines of the pool are a transition system. A step is one
      channel operation, one operation on the [sync.WaitGroup], one call of
      a chunk method under the chunk's mutex, or one whole call of
      [downloadChunk]; a schedule says which goroutine moves next. A
      buffered channel blocks a send when it is full and a receive when it
      is empty and open; sending on or closing a closed channel panics, and
      so does a wait-group counter that goes below zero. *)

From Stdlib Require Import ZArith Lia.
From stdpp Require Import base tactics option list gmap strings pretty.

Local Open Scope Z_scope.

(** ** Machine integers *)

Definition int64_min : Z := - 2 ^ 63.
Definition int64_max : Z := 2 ^ 63 - 1.

Definition is_int64 (z : Z) : Prop := int64_min <= z <= int64_max.

Definition wrap64 (z : Z) : Z := (z + 2 ^ 63) mod 2 ^ 64 - 2 ^ 63.

Definition add64 (a b : Z) : Z := wrap64 (a + b).
Definition sub64 (a b : Z) : Z := wrap64 (a - b).
Definition mul64 (a b : Z) : Z := wrap64 (a * b).
(** Go's [/] on integers truncates toward zero. *)
Definition quot64 (a b : Z) : Z := wrap64 (Z.quot a b).

(** ** Errors *)

Inductive error : Type :=
  | ErrExternal (code : nat)
      (* an error value handed back by the runtime, the file system or the network *)
  | ErrInvalidFileSize (fileSize : Z)
  | ErrCreateTempFile (cause : error)
  | ErrCreateRequest (cause : error)
  | ErrSendRequest (cause : error)
  | ErrUnexpectedStatus (code : Z)
  | ErrWriteFile (cause : error)
  | ErrReadResponse (cause : error)
  | ErrOpenFile (path : string) (cause : error)
  | ErrCopyFrom (path : string) (cause : error)
  | ErrChunkFailed (id : Z) (cause : error)
  | ErrMergeChunks (cause : error).

(** ** Chunk (internal/download, chunk.go) *)

Record Chunk : Type := mkChunk {
  ID : Z;
  URL : string;
  Start : Z;
  End_ : Z;
  TempFile : string;
  Size : Z;
  Downloaded : Z;
  Completed : bool;
  Failed : bool;
  RetryCount : Z
}.

Definition byte : Type := Byte.byte.

(** The file system: path to content. *)
Abbreviation filesys := (gmap string (list byte)).

(** The store of chunks that [*Chunk] values point into. *)
Abbreviation heap := (gmap nat Chunk).

Section Planner.

(** [filepath.Join] belongs to the Go standard library. *)
Variable filepath_Join : string -> string -> string.

(** [fmt.Sprintf("chunk_%d", id)] *)
Definition chunk_file_name (id : Z) : string := "chunk_" +:+ pretty id.

Definition NewChunk (id : Z) (url : string) (start end_ : Z) (tempDir : string) : Chunk :=
  {| ID := id;
     URL := url;
     Start := start;
     End_ := end_;
     Size := add64 (sub64 end_ start) 1;
     TempFile := filepath_Join tempDir (chunk_file_name id);
     Downloaded := 0;
     Completed := false;
     Failed := false;
     RetryCount := 0 |}.

(** The body of [for i := 0; i < numChunks; i++] in [CalculateChunks];
    [fuel] bounds the number of iterations left. *)
Fixpoint CalculateChunks_loop (url : string) (fileSize numChunks chunkSize : Z)
    (tempDir : string) (fuel : nat) (i : Z) : list Chunk :=
  match fuel with
  | O => []
  | S fuel' =>
      if i <? numChunks then
        let start := mul64 i chunkSize in
        let end_ :=
          if i =? sub64 numChunks 1 then sub64 fileSize 1
          else sub64 (add64 start chunkSize) 1 in
        NewChunk i url start end_ tempDir
          :: CalculateChunks_loop url fileSize numChunks chunkSize tempDir fuel' (add64 i 1)
      else []
  end.

Definition CalculateChunks (url : string) (fileSize numChunks : Z) (tempDir : string)
    : error + list Chunk :=
  if fileSize <=? 0 then inl (ErrInvalidFileSize fileSize)
  else
    let numChunks := if numChunks <=? 0 then 1 else numChunks in
    (* [int64(numChunks)] and [int(fileSize)] change nothing at 64 bits *)
    let numChunks := if fileSize <? numChunks then fileSize else numChunks in
    let chunkSize := quot64 fileSize numChunks in
    inr (CalculateChunks_loop url fileSize numChunks chunkSize tempDir
           (Z.to_nat numChunks) 0).

End Planner.

(** [c.Downloaded += bytesRead; if c.Downloaded >= c.Size { c.Completed = true }] *)
Definition UpdateProgress (c : Chunk) (bytesRead : Z) : Chunk :=
  let downloaded := add64 (Downloaded c) bytesRead in
  {| ID := ID c; URL := URL c; Start := Start c; End_ := End_ c;
     TempFile := TempFile c; Size := Size c;
     Downloaded := downloaded;
     Completed := if Size c <=? downloaded then true else Completed c;
     Failed := Failed c;
     RetryCount := RetryCount c |}.

(** [c.Failed = true; c.RetryCount++] *)
Definition MarkFailed (c : Chunk) : Chunk :=
  {| ID := ID c; URL := URL c; Start := Start c; End_ := End_ c;
     TempFile := TempFile c; Size := Size c;
     Downloaded := Downloaded c;
     Completed := Completed c;
     Failed := true;
     RetryCount := add64 (RetryCount c) 1 |}.

(** [ResetForRetry]: the temp file is removed when [os.Stat] finds it, then
    [c.Downloaded = 0; c.Failed = false]. *)
Definition ResetForRetry (fs : filesys) (c : Chunk) : filesys * Chunk :=
  let fs' :=
    match fs !! TempFile c with
    | Some _ => delete (TempFile c) fs
    | None => fs
    end in
  (fs',
   {| ID := ID c; URL := URL c; Start := Start c; End_ := End_ c;
      TempFile := TempFile c; Size := Size c;
      Downloaded := 0;
      Completed := Completed c;
      Failed := false;
      RetryCount := RetryCount c |}).

(** ** Outcomes of a run *)

(** A run returns, aborts on a nil pointer or a misused channel, or is cut
    short (the fuel of a copy loop ran out, or the schedule given to the
    pool stops before the pool returns). *)
Inductive exec (A : Type) : Type :=
  | Ret (a : A)
  | Panic
  | Unfinished.
Arguments Ret {A} a.
Arguments Panic {A}.
Arguments Unfinished {A}.

(** ** Reading a plan (chunk.go) *)

Fixpoint ValidateChunks (h : heap) (chunks : list nat) : option bool :=
  match chunks with
  | [] => Some true
  | p :: rest =>
      match h !! p with
      | None => None
      | Some chunk =>
          if negb (Completed chunk) || Failed chunk then Some false
          else ValidateChunks h rest
      end
  end.

Fixpoint GetTempFilePaths (h : heap) (chunks : list nat) : option (list string) :=
  match chunks with
  | [] => Some []
  | p :: rest =>
      match h !! p with
      | None => None
      | Some chunk =>
          match GetTempFilePaths h rest with
          | None => None
          | Some paths => Some (TempFile chunk :: paths)
          end
      end
  end.

(** ** Files (internal/utils/file.go) *)

(** [32*1024], the length of the copy buffer. *)
Definition buffer_len : nat := Z.to_nat (32 * 1024).

(** [CreateFile]: [os.Create] makes the file or truncates the one there. The
    flat file system has no directories and no permissions, so in it the
    call cannot fail. *)
Definition CreateFile (fs : filesys) (path : string) : filesys := <[path := []]> fs.

(** Content of an open file; a path the map does not hold reads as empty. *)
Definition content_of (fs : filesys) (path : string) : list byte :=
  default [] (fs !! path).

(** [io.CopyBuffer(dst, src, buffer)]: read at most [len(buffer)] bytes from
    [src] at its offset and append them to [dst], until a read meets the end
    of [src]. Reads and writes cannot fail in the flat file system, so the
    branch of [MergeFiles] for a failed copy is never taken; [None] is a
    copy that has not ended when the fuel is used up. *)
Fixpoint CopyBuffer (fuel : nat) (fs : filesys) (dst src : string) (offset : nat)
    : option filesys :=
  match fuel with
  | O => None
  | S fuel' =>
      match take buffer_len (drop offset (content_of fs src)) with
      | [] => Some fs
      | data =>
          CopyBuffer fuel' (<[dst := content_of fs dst ++ data]> fs) dst src
            (offset + length data)
      end
  end.

(** The loop of [MergeFiles] over [inputPaths]. *)
Fixpoint MergeFiles_loop (fuel : nat) (fs : filesys) (outputPath : string)
    (inputPaths : list string) : exec (filesys * option error) :=
  match inputPaths with
  | [] => Ret (fs, None)
  | inputPath :: rest =>
      match fs !! inputPath with
      | None => Ret (fs, Some (ErrOpenFile inputPath (ErrExternal 2)))
      | Some _ =>
          match CopyBuffer fuel fs outputPath inputPath 0 with
          | None => Unfinished
          | Some fs' => MergeFiles_loop fuel fs' outputPath rest
          end
      end
  end.

Definition MergeFiles (fuel : nat) (fs : filesys) (outputPath : string)
    (inputPaths : list string) : exec (filesys * option error) :=
  MergeFiles_loop fuel (CreateFile fs outputPath) outputPath inputPaths.

(** [Downloader.mergeChunks], on the fields of the downloader it reads. *)
Definition mergeChunks (fuel : nat) (fs : filesys) (h : heap) (OutputPath : string)
    (Chunks : list nat) : exec (filesys * option error) :=
  match GetTempFilePaths h Chunks with
  | None => Panic
  | Some paths =>
      match MergeFiles fuel fs OutputPath paths with
      | Ret (fs', Some err) => Ret (fs', Some (ErrMergeChunks err))
      | other => other
      end
  end.

(** ** The network, as one fetch meets it (internal/utils/http.go) *)

Inductive body_end : Type :=
  | BodyEOF
  | BodyError (e : error).

(** What [client.Do] gives back on one try: a transport error, or a status
    with a body that arrives in blocks and then ends. *)
Inductive attempt : Type :=
  | Refused (e : error)
  | Answered (StatusCode : Z) (Body : list (list byte)) (BodyEnd : body_end).

(** Everything outside the program that one call of [downloadChunk] meets. *)
Record fetch_env : Type := mkFetchEnv {
  create_error : option error;     (* [os.Create] of the temp file *)
  request_error : option error;    (* [http.NewRequest] *)
  answers : nat -> attempt;        (* [client.Do], by try *)
  write_error : nat -> option error (* [file.Write], by write *)
}.

Definition maxRetries : Z := 3.
Definition StatusOK : Z := 200.
Definition StatusPartialContent : Z := 206.

(** [DoRequestWithRetry]: the loop [for retryCount < maxRetries]; it hands
    back the status, the body and its end, or the last error ([nil] if the
    loop never ran). *)
Fixpoint DoRequestWithRetry_loop (answers : nat -> attempt) (fuel : nat)
    (retryCount : Z) (err : option error)
    : option error + (Z * list (list byte) * body_end) :=
  match fuel with
  | O => inl err
  | S fuel' =>
      if retryCount <? maxRetries then
        match answers (Z.to_nat retryCount) with
        | Answered code body fin =>
            if (code =? StatusOK) || (code =? StatusPartialContent)
            then inr (code, body, fin)
            else DoRequestWithRetry_loop answers fuel' (add64 retryCount 1)
                   (Some (ErrUnexpectedStatus code))
        | Refused e =>
            DoRequestWithRetry_loop answers fuel' (add64 retryCount 1) (Some e)
        end
      else inl err
  end.

Definition DoRequestWithRetry (answers : nat -> attempt)
    : option error + (Z * list (list byte) * body_end) :=
  DoRequestWithRetry_loop answers (S (Z.to_nat maxRetries)) 0 None.

(** ** Worker pool (internal/download, worker.go) *)

Record Result : Type := mkResult {
  Result_Chunk : nat;
  Result_Error : option error
}.

(** The read loop of [downloadChunk]: every block of [n > 0] bytes is written
    to the temp file and then reported with [UpdateProgress]. [writes]
    counts the writes made so far. *)
Fixpoint downloadChunk_read (werr : nat -> option error) (chunk : Chunk)
    (file : list byte) (writes : nat) (body : list (list byte)) (fin : body_end)
    : Chunk * list byte * option error :=
  match body with
  | [] =>
      (chunk, file,
       match fin with
       | BodyEOF => None
       | BodyError e => Some (ErrReadResponse e)
       end)
  | data :: rest =>
      if 0 <? Z.of_nat (length data) then
        match werr writes with
        | Some e => (chunk, file, Some (ErrWriteFile e))
        | None =>
            downloadChunk_read werr (UpdateProgress chunk (Z.of_nat (length data)))
              (file ++ data) (S writes) rest fin
        end
      else downloadChunk_read werr chunk file writes rest fin
  end.

(** [Worker.downloadChunk] on the chunk at address [p]. *)
Definition downloadChunk (env : fetch_env) (fs : filesys) (h : heap) (p : nat)
    : option (filesys * heap * option error) :=
  match h !! p with
  | None => None
  | Some chunk =>
      match create_error env with
      | Some e => Some (fs, h, Some (ErrCreateTempFile e))
      | None =>
          let fs := <[TempFile chunk := []]> fs in
          match request_error env with
          | Some e => Some (fs, h, Some (ErrCreateRequest e))
          | None =>
              match DoRequestWithRetry (answers env) with
              | inl (Some e) => Some (fs, h, Some (ErrSendRequest e))
              | inl None => None   (* a nil response and a nil error *)
              | inr (code, body, fin) =>
                  if negb (code =? StatusPartialContent) && negb (code =? StatusOK)
                  then Some (fs, h, Some (ErrUnexpectedStatus code))
                  else
                    let '(chunk', file, err) :=
                      downloadChunk_read (write_error env) chunk [] 0 body fin in
                    Some (<[TempFile chunk := file]> fs, <[p := chunk']> h, err)
              end
          end
      end
  end.

(** Where a worker goroutine stands in the loop of [Worker.Start]. *)
Inductive worker_state : Type :=
  | WReceive                              (* [for chunk := range w.JobQueue] *)
  | WDownload (chunk : nat)               (* [err := w.downloadChunk(chunk)] *)
  | WMarkFailed (chunk : nat) (err : error) (* [chunk.MarkFailed()] *)
  | WSend (result : Result)               (* [w.Results <- result] *)
  | WDone                                 (* [w.WaitGroup.Done()] *)
  | WExited.

(** Where [StartWorkerPool] itself stands. *)
Inductive main_state : Type :=
  | MSpawn (i : Z)                        (* [for i := 0; i < numWorkers; i++] *)
  | MAdd (rest : list nat)                (* [for _, chunk := range chunks], at [wg.Add(1)] *)
  | MEnqueue (chunk : nat) (rest : list nat) (* [jobQueue <- chunk] *)
  | MClose                                (* [close(jobQueue)] *)
  | MGo                                   (* [go func() { wg.Wait(); close(results) }()] *)
  | MCollect (downloadResults : list Result) (* [for result := range results] *)
  | MReturn (downloadResults : list Result). (* [return downloadResults, nil] *)

(** The goroutine that waits for the group and closes [results]. *)
Inductive waiter_state : Type :=
  | WaiterNotStarted
  | WaiterWait
  | WaiterClose
  | WaiterExited.

(** A buffered channel: what it holds, its capacity, whether it is closed. *)
Record chan (A : Type) : Type := mkChan {
  buffer : list A;
  capacity : nat;
  closed : bool
}.
Arguments mkChan {A} _ _ _.
Arguments buffer {A} _.
Arguments capacity {A} _.
Arguments closed {A} _.

Record pool : Type := mkPool {
  pool_fs : filesys;
  pool_heap : heap;
  numWorkers : Z;
  main : main_state;
  workers : list worker_state;
  waiter : waiter_state;
  jobQueue : chan nat;
  results : chan Result;
  wg : Z;           (* the counter of the [sync.WaitGroup] *)
  panicked : bool
}.

Definition pool_init (fs : filesys) (h : heap) (numWorkers : Z) (chunks : list nat) : pool :=
  {| pool_fs := fs; pool_heap := h; numWorkers := numWorkers;
     main := MSpawn 0; workers := []; waiter := WaiterNotStarted;
     jobQueue := mkChan [] (length chunks) false;
     results := mkChan [] (length chunks) false;
     wg := 0; panicked := false |}.

Definition set_main (m : main_state) (s : pool) : pool :=
  {| pool_fs := pool_fs s; pool_heap := pool_heap s; numWorkers := numWorkers s;
     main := m; workers := workers s; waiter := waiter s;
     jobQueue := jobQueue s; results := results s; wg := wg s;
     panicked := panicked s |}.

Definition set_world (fs : filesys) (h : heap) (s : pool) : pool :=
  {| pool_fs := fs; pool_heap := h; numWorkers := numWorkers s;
     main := main s; workers := workers s; waiter := waiter s;
     jobQueue := jobQueue s; results := results s; wg := wg s;
     panicked := panicked s |}.

Definition set_workers (ws : list worker_state) (s : pool) : pool :=
  {| pool_fs := pool_fs s; pool_heap := pool_heap s; numWorkers := numWorkers s;
     main := main s; workers := ws; waiter := waiter s;
     jobQueue := jobQueue s; results := results s; wg := wg s;
     panicked := panicked s |}.

Definition set_waiter (w : waiter_state) (s : pool) : pool :=
  {| pool_fs := pool_fs s; pool_heap := pool_heap s; numWorkers := numWorkers s;
     main := main s; workers := workers s; waiter := w;
     jobQueue := jobQueue s; results := results s; wg := wg s;
     panicked := panicked s |}.

Definition set_jobQueue (q : chan nat) (s : pool) : pool :=
  {| pool_fs := pool_fs s; pool_heap := pool_heap s; numWorkers := numWorkers s;
     main := main s; workers := workers s; waiter := waiter s;
     jobQueue := q; results := results s; wg := wg s;
     panicked := panicked s |}.

Definition set_results (r : chan Result) (s : pool) : pool :=
  {| pool_fs := pool_fs s; pool_heap := pool_heap s; numWorkers := numWorkers s;
     main := main s; workers := workers s; waiter := waiter s;
     jobQueue := jobQueue s; results := r; wg := wg s;
     panicked := panicked s |}.

Definition set_wg (n : Z) (s : pool) : pool :=
  {| pool_fs := pool_fs s; pool_heap := pool_heap s; numWorkers := numWorkers s;
     main := main s; workers := workers s; waiter := waiter s;
     jobQueue := jobQueue s; results := results s; wg := n;
     panicked := panicked s |}.

(** A run-time panic takes the whole process down. *)
Definition panic (s : pool) : pool :=
  {| pool_fs := pool_fs s; pool_heap := pool_heap s; numWorkers := numWorkers s;
     main := main s; workers := workers s; waiter := waiter s;
     jobQueue := jobQueue s; results := results s; wg := wg s;
     panicked := true |}.

(** Channel operations. [None] is a blocked operation; the outer [exec]-like
    sum tells a panic ([inl]) from a completed operation. *)
Definition chan_send {A : Type} (c : chan A) (x : A) : option (unit + chan A) :=
  if closed c then Some (inl tt)
  else if (length (buffer c) <? capacity c)%nat
       then Some (inr (mkChan (buffer c ++ [x]) (capacity c) false))
       else None.

Definition chan_recv {A : Type} (c : chan A) : option (option A * chan A) :=
  match buffer c with
  | x :: rest => Some (Some x, mkChan rest (capacity c) (closed c))
  | [] => if closed c then Some (None, c) else None
  end.

Definition chan_close {A : Type} (c : chan A) : unit + chan A :=
  if closed c then inl tt else inr (mkChan (buffer c) (capacity c) true).

(** One step of [StartWorkerPool]'s own goroutine. *)
Definition step_main (chunks : list nat) (s : pool) : option pool :=
  match main s with
  | MSpawn i =>
      if i <? numWorkers s
      then Some (set_main (MSpawn (add64 i 1)) (set_workers (workers s ++ [WReceive]) s))
      else Some (set_main (MAdd chunks) s)
  | MAdd [] => Some (set_main MClose s)
  | MAdd (chunk :: rest) =>
      Some (set_main (MEnqueue chunk rest) (set_wg (wg s + 1) s))
  | MEnqueue chunk rest =>
      match chan_send (jobQueue s) chunk with
      | None => None
      | Some (inl _) => Some (panic s)
      | Some (inr q) => Some (set_main (MAdd rest) (set_jobQueue q s))
      end
  | MClose =>
      match chan_close (jobQueue s) with
      | inl _ => Some (panic s)
      | inr q => Some (set_main MGo (set_jobQueue q s))
      end
  | MGo => Some (set_main (MCollect []) (set_waiter WaiterWait s))
  | MCollect downloadResults =>
      match chan_recv (results s) with
      | None => None
      | Some (Some result, r) =>
          Some (set_main (MCollect (downloadResults ++ [result])) (set_results r s))
      | Some (None, _) => Some (set_main (MReturn downloadResults) s)
      end
  | MReturn _ => None
  end.

(** One step of worker [i]; [env] is looked at by the download step only. *)
Definition step_worker (i : nat) (env : option fetch_env) (s : pool) : option pool :=
  let become (w : worker_state) (s : pool) := set_workers (<[i := w]> (workers s)) s in
  match workers s !! i, env with
  | Some WReceive, None =>
      match chan_recv (jobQueue s) with
      | None => None
      | Some (Some chunk, q) => Some (become (WDownload chunk) (set_jobQueue q s))
      | Some (None, _) => Some (become WExited s)
      end
  | Some (WDownload chunk), Some env =>
      match downloadChunk env (pool_fs s) (pool_heap s) chunk with
      | None => Some (panic s)
      | Some (fs, h, None) =>
          Some (become (WSend (mkResult chunk None)) (set_world fs h s))
      | Some (fs, h, Some err) =>
          Some (become (WMarkFailed chunk err) (set_world fs h s))
      end
  | Some (WMarkFailed chunk err), None =>
      match pool_heap s !! chunk with
      | None => Some (panic s)
      | Some c =>
          Some (become (WSend (mkResult chunk (Some err)))
                  (set_world (pool_fs s) (<[chunk := MarkFailed c]> (pool_heap s)) s))
      end
  | Some (WSend result), None =>
      match chan_send (results s) result with
      | None => None
      | Some (inl _) => Some (panic s)
      | Some (inr r) => Some (become WDone (set_results r s))
      end
  | Some WDone, None =>
      if wg s - 1 <? 0 then Some (panic s)
      else Some (become WReceive (set_wg (wg s - 1) s))
  | _, _ => None
  end.

(** One step of the goroutine [wg.Wait(); close(results)]. *)
Definition step_waiter (s : pool) : option pool :=
  match waiter s with
  | WaiterWait => if wg s =? 0 then Some (set_waiter WaiterClose s) else None
  | WaiterClose =>
      match chan_close (results s) with
      | inl _ => Some (panic s)
      | inr r => Some (set_waiter WaiterExited (set_results r s))
      end
  | _ => None
  end.

(** Who moves next, and for a download what the outside world answers. *)
Inductive action : Type :=
  | ActMain
  | ActWorker (i : nat)
  | ActFetch (i : nat) (env : fetch_env)
  | ActWaiter.

Definition step (chunks : list nat) (a : action) (s : pool) : option pool :=
  if panicked s then None
  else
    match a with
    | ActMain => step_main chunks s
    | ActWorker i => step_worker i None s
    | ActFetch i env => step_worker i (Some env) s
    | ActWaiter => step_waiter s
    end.

Fixpoint run (chunks : list nat) (sched : list action) (s : pool) : option pool :=
  match sched with
  | [] => Some s
  | a :: sched' =>
      match step chunks a s with
      | None => None
      | Some s' => run chunks sched' s'
      end
  end.

(** [StartWorkerPool] under the schedule [sched]. *)
Definition StartWorkerPool (sched : list action) (fs : filesys) (h : heap)
    (numWorkers : Z) (chunks : list nat)
    : exec (filesys * heap * list Result * option error) :=
  match run chunks sched (pool_init fs h numWorkers chunks) with
  | None => Unfinished
  | Some s =>
      if panicked s then Panic
      else
        match main s with
        | MReturn downloadResults => Ret (pool_fs s, pool_heap s, downloadResults, None)
        | _ => Unfinished
        end
  end.

(** The first loop of [RetryFailedChunks]. *)
Fixpoint RetryFailedChunks_select (fs : filesys) (h : heap) (chunks : list nat)
    (maxRetries : Z) (failedChunks : list nat) : option (filesys * heap * list nat) :=
  match chunks with
  | [] => Some (fs, h, failedChunks)
  | p :: rest =>
      match h !! p with
      | None => None
      | Some chunk =>
          if Failed chunk && (RetryCount chunk <? maxRetries) then
            let '(fs', chunk') := ResetForRetry fs chunk in
            RetryFailedChunks_select fs' (<[p := chunk']> h) rest maxRetries
              (failedChunks ++ [p])
          else RetryFailedChunks_select fs h rest maxRetries failedChunks
      end
  end.

(** The last loop of [RetryFailedChunks]: the first result with an error. *)
Fixpoint RetryFailedChunks_check (h : heap) (results : list Result) : option (option error) :=
  match results with
  | [] => Some None
  | result :: rest =>
      match Result_Error result with
      | Some err =>
          match h !! Result_Chunk result with
          | None => None
          | Some chunk => Some (Some (ErrChunkFailed (ID chunk) err))
          end
      | None => RetryFailedChunks_check h rest
      end
  end.

Definition RetryFailedChunks (sched : list action) (fs : filesys) (h : heap)
    (chunks : list nat) (maxRetries : Z) : exec (filesys * heap * option error) :=
  match RetryFailedChunks_select fs h chunks maxRetries [] with
  | None => Panic
  | Some (fs, h, failedChunks) =>
      if (length failedChunks =? 0)%nat then Ret (fs, h, None)
      else
        match StartWorkerPool sched fs h (Z.of_nat (length failedChunks)) failedChunks with
        | Panic => Panic
        | Unfinished => Unfinished
        | Ret (fs, h, results, Some err) => Ret (fs, h, Some err)
        | Ret (fs, h, results, None) =>
            match RetryFailedChunks_check h results with
            | None => Panic
            | Some err => Ret (fs, h, err)
            end
        end
  end.

(** ** Vocabulary of the statements *)

(** [completed] is true exactly when [downloaded >= size]. *)
Definition chunk_invariant (c : Chunk) : Prop :=
  Completed c = true <-> Size c <= Downloaded c.

(** The half of [chunk_invariant] that survives a reset. *)
Definition chunk_invariant_weak (c : Chunk) : Prop :=
  Size c <= Downloaded c -> Completed c = true.

(** The sum of the byte counts handed to [UpdateProgress]. *)
Definition total_bytes (counts : list Z) : Z := foldr Z.add 0 counts.

(** [n] calls of [MarkFailed]. *)
Definition MarkFailed_times (n : nat) (c : Chunk) : Chunk := Nat.iter n MarkFailed c.

(** The byte offsets [Start..End] of a chunk hold [b]. *)
Definition covers (c : Chunk) (b : Z) : Prop := Start c <= b <= End_ c.

(** The thread count [CalculateChunks] works with. *)
Definition clamp_threads (fileSize numChunks : Z) : Z :=
  Z.max 1 (Z.min numChunks fileSize).

(** A path join for the examples: directory, slash, name. *)
Definition join_slash (dir name : string) : string := dir +:+ "/" +:+ name.

(** ** Closed forms, measures and example data *)

(** Chunk [k] of a plan of [n] chunks over [fileSize] bytes, in closed form. *)
Definition planned_chunk (join : string -> string -> string) (url : string)
    (fileSize n : Z) (tempDir : string) (k : Z) : Chunk :=
  NewChunk join k url (k * (fileSize / n))
    (if k =? n - 1 then fileSize - 1 else k * (fileSize / n) + fileSize / n - 1)
    tempDir.

(** The longest input decides how much fuel a merge needs. *)
Definition merge_fuel (fs : filesys) (inputPaths : list string) : nat :=
  S (foldr Nat.max 0%nat ((fun p => length (content_of fs p)) <$> inputPaths)).

(** The chunk a worker has taken from the queue and not yet sent back. *)
Definition held (w : worker_state) : list nat :=
  match w with
  | WDownload chunk | WMarkFailed chunk _ => [chunk]
  | WSend result => [Result_Chunk result]
  | _ => []
  end.

(** 1 for a worker between its receive and its [Done]. *)
Definition busy (w : worker_state) : nat :=
  match w with
  | WDownload _ | WMarkFailed _ _ | WSend _ | WDone => 1
  | _ => 0
  end.

(** Chunks the main goroutine has not put in the queue yet. *)
Definition pending (chunks : list nat) (m : main_state) : list nat :=
  match m with
  | MSpawn _ => chunks
  | MAdd rest => rest
  | MEnqueue chunk rest => chunk :: rest
  | _ => []
  end.

(** 1 between [wg.Add(1)] and the send that follows it. *)
Definition enqueueing (m : main_state) : nat :=
  match m with
  | MEnqueue _ _ => 1
  | _ => 0
  end.

(** Results the main goroutine has taken from the channel. *)
Definition collected (m : main_state) : list Result :=
  match m with
  | MCollect downloadResults | MReturn downloadResults => downloadResults
  | _ => []
  end.

Definition queue_closed_at (m : main_state) : bool :=
  match m with
  | MGo | MCollect _ | MReturn _ => true
  | _ => false
  end.

Definition collecting (m : main_state) : bool :=
  match m with
  | MCollect _ | MReturn _ => true
  | _ => false
  end.

Definition returned (m : main_state) : bool :=
  match m with
  | MReturn _ => true
  | _ => false
  end.

Definition sum_over {A : Type} (f : A -> nat) (l : list A) : nat :=
  foldr (fun x n => (f x + n)%nat) 0%nat l.

Arguments sum_over : simpl never.

(** A way of counting chunks that adds up over lists: their number, or the
    occurrences of one address. *)
Definition additive (mu : list nat -> nat) : Prop :=
  mu [] = 0%nat /\ forall x l, mu (x :: l) = (mu [x] + mu l)%nat.

Definition occ (p : nat) (l : list nat) : nat := count_occ Nat.eq_dec l p.

(** What is left to do, as a number of steps. *)
Definition worker_potential (w : worker_state) : nat :=
  match w with
  | WReceive => 1
  | WDownload _ => 6
  | WMarkFailed _ _ => 5
  | WSend _ => 4
  | WDone => 2
  | WExited => 0
  end.

Definition waiter_potential (w : waiter_state) : nat :=
  match w with
  | WaiterNotStarted => 0
  | WaiterWait => 2
  | WaiterClose => 1
  | WaiterExited => 0
  end.

Definition main_potential (nw : Z) (chunks : list nat) (m : main_state) : nat :=
  match m with
  | MSpawn i => 7 + 8 * length chunks + 2 * Z.to_nat (nw - i)
  | MAdd rest => 6 + 8 * length rest
  | MEnqueue _ rest => 13 + 8 * length rest
  | MClose => 5
  | MGo => 4
  | MCollect _ => 1
  | MReturn _ => 0
  end.

Definition potential (chunks : list nat) (s : pool) : nat :=
  main_potential (numWorkers s) chunks (main s)
  + sum_over worker_potential (workers s)
  + waiter_potential (waiter s)
  + 6 * length (buffer (jobQueue s))
  + length (buffer (results s))
  + (if panicked s then 0 else 1).

(** The longest a run of the pool can be. *)
Definition pool_bound (numWorkers : Z) (chunks : list nat) : nat :=
  8 + 8 * length chunks + 2 * Z.to_nat numWorkers.

(** What holds of every state the pool reaches from [pool_init fs h nw chunks]. *)
Record pool_inv (h0 : heap) (nw : Z) (chunks : list nat) (s : pool) : Prop := mkPoolInv {
  inv_alive : panicked s = false;
  inv_numWorkers : numWorkers s = nw;
  inv_capacity :
    capacity (jobQueue s) = length chunks /\ capacity (results s) = length chunks;
  inv_account : forall mu, additive mu ->
    mu chunks =
      (mu (Result_Chunk <$> collected (main s))
       + mu (Result_Chunk <$> buffer (results s))
       + sum_over (fun w => mu (held w)) (workers s)
       + mu (buffer (jobQueue s))
       + mu (pending chunks (main s)))%nat;
  inv_wg :
    wg s = Z.of_nat (length (buffer (jobQueue s)) + sum_over busy (workers s)
                     + enqueueing (main s));
  inv_queue_closed : closed (jobQueue s) = queue_closed_at (main s);
  inv_waiter_started :
    collecting (main s) = match waiter s with WaiterNotStarted => false | _ => true end;
  inv_results_closed :
    closed (results s) = match waiter s with WaiterExited => true | _ => false end;
  inv_waited :
    match waiter s with WaiterClose | WaiterExited => wg s = 0 | _ => True end;
  inv_returned :
    returned (main s) = true ->
    closed (results s) = true /\ buffer (results s) = [];
  inv_exited :
    WExited ∈ workers s ->
    closed (jobQueue s) = true /\ buffer (jobQueue s) = [];
  inv_spawned :
    match main s with
    | MSpawn i => 0 <= i /\ (i <= nw \/ i = 0) /\ length (workers s) = Z.to_nat i
    | _ => length (workers s) = Z.to_nat nw
    end;
  inv_heap : forall p, is_Some (h0 !! p) -> is_Some (pool_heap s !! p)
}.

(** An answer of the network that lets a fetch go through. *)
Definition quiet_env : fetch_env :=
  mkFetchEnv None None (fun _ => Answered StatusPartialContent [] BodyEOF)
    (fun _ => None).

(** [chunk.Failed && chunk.RetryCount < maxRetries] *)
Definition retry_eligible (maxRetries : Z) (c : Chunk) : bool :=
  Failed c && (RetryCount c <? maxRetries).

(** The temp files of the chunks at the addresses [sel]. *)
Definition temp_files (h : heap) (sel : list nat) : list string :=
  omap (fun p => TempFile <$> h !! p) sel.

(** Identity, range and size of the chunks of a plan. *)
Definition plan_ranges (plan : error + list Chunk) : error + list (Z * Z * Z * Z) :=
  match plan with
  | inl err => inl err
  | inr chunks => inr ((fun c => (ID c, Start c, End_ c, Size c)) <$> chunks)
  end.

(** One chunk of four bytes, already failed once. *)
Definition example_chunk : Chunk :=
  mkChunk 0 "u" 0 3 "/tmp/chunk_0" 4 2 false true 1.

(** A server that refuses the connection on every try. *)
Definition refusing_env : fetch_env :=
  mkFetchEnv None None (fun _ => Refused (ErrExternal 111)) (fun _ => None).

(** A server that sends the four bytes in two blocks. *)
Definition serving_env : fetch_env :=
  mkFetchEnv None None
    (fun _ => Answered StatusPartialContent
                [[Byte.x01; Byte.x02]; [Byte.x03; Byte.x04]] BodyEOF)
    (fun _ => None).

(** One worker, one chunk: the steps of a whole run when the fetch goes
    through, and when it fails and the chunk is marked. *)
Definition example_sched : list action :=
  [ActMain; ActMain; ActMain; ActMain;
   ActWorker 0; ActFetch 0 serving_env; ActWorker 0; ActWorker 0;
   ActMain; ActMain; ActMain; ActWaiter; ActWorker 0; ActWaiter;
   ActMain; ActMain].

Definition example_failed_sched : list action :=
  [ActMain; ActMain; ActMain; ActMain;
   ActWorker 0; ActFetch 0 refusing_env; ActWorker 0; ActWorker 0; ActWorker 0;
   ActMain; ActMain; ActMain; ActWaiter; ActWorker 0; ActWaiter;
   ActMain; ActMain].

(** What a run of the pool gave: the results, the pool's own error, and of
    chunk 0 its counters and its temp file. *)
Definition pool_outcome (r : exec (filesys * heap * list Result * option error)) :=
  match r with
  | Ret (fs, h, results, err) =>
      Some (results, err,
            (fun c => (Downloaded c, Completed c, Failed c, RetryCount c)) <$> h !! 0%nat,
            fs !! "/tmp/chunk_0")
  | _ => None
  end.

(** What a merge left in the file at [path], and its error. *)
Definition merge_outcome (path : string) (r : exec (filesys * option error)) :=
  match r with
  | Ret (fs, err) => Some (fs !! path, err)
  | _ => None
  end.

Definition example_files : filesys :=
  <["b" := [Byte.x03; Byte.x04; Byte.x05]]> {["a" := [Byte.x01; Byte.x02]]}.

(** ** Machine integers: facts *)

Lemma wrap64_id z : is_int64 z -> wrap64 z = z.
Proof.
  unfold is_int64, int64_min, int64_max, wrap64. intros Hz.
  rewrite Z.mod_small by lia. lia.
Qed.

Lemma wrap64_range z : is_int64 (wrap64 z).
Proof.
  unfold is_int64, int64_min, int64_max, wrap64.
  pose proof (Z.mod_pos_bound (z + 2 ^ 63) (2 ^ 64) ltac:(lia)). lia.
Qed.

Lemma wrap64_add_l a b : wrap64 (wrap64 a + b) = wrap64 (a + b).
Proof.
  unfold wrap64. f_equal.
  replace ((a + 2 ^ 63) mod 2 ^ 64 - 2 ^ 63 + b + 2 ^ 63)
    with ((a + 2 ^ 63) mod 2 ^ 64 + b) by lia.
  rewrite Zplus_mod_idemp_l. f_equal. lia.
Qed.

Lemma wrap64_le_nonneg z : 0 <= z -> wrap64 z <= z.
Proof.
  intros Hz. unfold wrap64.
  pose proof (Z.mod_le (z + 2 ^ 63) (2 ^ 64) ltac:(lia) ltac:(lia)). lia.
Qed.

Ltac int64_simpl :=
  unfold add64, sub64, mul64, quot64;
  repeat match goal with
    | |- context [wrap64 ?z] =>
        rewrite (wrap64_id z) by (unfold is_int64, int64_min, int64_max in *; nia)
    end.

(** ** Chunk state *)

Lemma UpdateProgress_Size c n : Size (UpdateProgress c n) = Size c.
Proof. reflexivity. Qed.

Lemma UpdateProgress_Downloaded c n :
  Downloaded (UpdateProgress c n) = add64 (Downloaded c) n.
Proof. reflexivity. Qed.

Lemma UpdateProgress_Completed c n :
  Completed (UpdateProgress c n) =
    if Size c <=? add64 (Downloaded c) n then true else Completed c.
Proof. reflexivity. Qed.

Lemma UpdateProgress_Completed_mono c n :
  Completed c = true -> Completed (UpdateProgress c n) = true.
Proof. intros H. rewrite UpdateProgress_Completed, H. by case_match. Qed.

(** C8. [ResetForRetry] sets [Downloaded] to 0 and [Failed] to false, keeps
    [RetryCount] at the value it had before the reset, and keeps [ID],
    [URL], [Start], [End], [Size] and the [TempFile] path. *)
Theorem ResetForRetry_frame (fs : filesys) (c : Chunk) :
  let c' := (ResetForRetry fs c).2 in
  Downloaded c' = 0 /\ Failed c' = false /\
  RetryCount c' = RetryCount c /\
  ID c' = ID c /\ URL c' = URL c /\ Start c' = Start c /\ End_ c' = End_ c /\
  Size c' = Size c /\ TempFile c' = TempFile c.
Proof. cbn. repeat split. Qed.

(** The file-system side of a reset: the temp file is gone, every other
    file is as it was. *)
Lemma ResetForRetry_fs (fs : filesys) (c : Chunk) (path : string) :
  (ResetForRetry fs c).1 !! path =
    if decide (path = TempFile c) then None else fs !! path.
Proof.
  unfold ResetForRetry; cbn. destruct (fs !! TempFile c) eqn:E.
  - case_decide; subst; [apply lookup_delete_eq | by apply lookup_delete_ne].
  - case_decide; subst; done.
Qed.

Lemma MarkFailed_times_S n c :
  MarkFailed_times (S n) c = MarkFailed (MarkFailed_times n c).
Proof. reflexivity. Qed.

Lemma MarkFailed_times_RetryCount n c :
  is_int64 (RetryCount c) ->
  RetryCount c + Z.of_nat n <= int64_max ->
  RetryCount (MarkFailed_times n c) = RetryCount c + Z.of_nat n.
Proof.
  intros Hr. induction n as [|n IH]; intros Hb.
  - cbn. lia.
  - rewrite MarkFailed_times_S. cbn [MarkFailed RetryCount].
    rewrite IH by lia. int64_simpl. lia.
Qed.

Lemma MarkFailed_times_frame n c :
  let c' := MarkFailed_times n c in
  ID c' = ID c /\ URL c' = URL c /\ Start c' = Start c /\ End_ c' = End_ c /\
  Size c' = Size c /\ TempFile c' = TempFile c /\
  Downloaded c' = Downloaded c /\ Completed c' = Completed c.
Proof.
  induction n as [|n IH]; [cbn; tauto|].
  cbn zeta in *. rewrite MarkFailed_times_S. cbn. tauto.
Qed.

(** C10. [MarkFailed] sets [Failed] and adds exactly one to [RetryCount];
    [ID], [URL], [Start], [End], [Size], [TempFile], [Downloaded] and
    [Completed] stay as they were, so neither the bytes already downloaded
    nor the completion flag are lost; [n] calls add [n], and no call
    lowers the count. The counter is an [int]: the statement is for counts
    that fit it. *)
Theorem MarkFailed_frame (c : Chunk) (n : nat) :
  is_int64 (RetryCount c) ->
  RetryCount c + Z.of_nat (S n) <= int64_max ->
  let c' := MarkFailed c in
  (Failed c' = true /\ RetryCount c' = RetryCount c + 1 /\
   ID c' = ID c /\ URL c' = URL c /\ Start c' = Start c /\ End_ c' = End_ c /\
   Size c' = Size c /\ TempFile c' = TempFile c /\
   Downloaded c' = Downloaded c /\ Completed c' = Completed c) /\
  (RetryCount (MarkFailed_times n c) = RetryCount c + Z.of_nat n /\
   RetryCount (MarkFailed_times n c) < RetryCount (MarkFailed_times (S n) c) /\
   Downloaded (MarkFailed_times n c) = Downloaded c /\
   Completed (MarkFailed_times n c) = Completed c).
Proof.
  intros Hr Hb. cbn zeta. split.
  - cbn. repeat split. int64_simpl. done.
  - rewrite !MarkFailed_times_RetryCount by (done || lia).
    pose proof (MarkFailed_times_frame n c) as F. cbn zeta in F.
    repeat split; try tauto. lia.
Qed.

Lemma MarkFailed_frame_witness :
  let c := mkChunk 1 "u" 0 1000 "/tmp/chunk_1" 1001 500 false false 0 in
  RetryCount (MarkFailed c) = 1 /\ Downloaded (MarkFailed c) = 500 /\
  RetryCount (MarkFailed_times 2 c) = 2.
Proof.
  cbn zeta.
  pose proof (MarkFailed_frame
    (mkChunk 1 "u" 0 1000 "/tmp/chunk_1" 1001 500 false false 0) 2
    ltac:(unfold is_int64, int64_min, int64_max; cbn; lia)
    ltac:(unfold int64_max; cbn; lia)) as H.
  cbn zeta in H. destruct H as [(_ & H1 & _ & _ & _ & _ & _ & _ & H2 & _) (H3 & _)].
  repeat split; assumption.
Defined.

(** ** Validation *)

Lemma ValidateChunks_total (h : heap) (chunks : list nat) :
  (forall p, p ∈ chunks -> is_Some (h !! p)) ->
  is_Some (ValidateChunks h chunks).
Proof.
  induction chunks as [|p rest IH]; intros Hv; cbn; [eauto|].
  destruct (Hv p ltac:(left)) as [c ->].
  case_match; [eauto|]. apply IH. intros q Hq. apply Hv. by right.
Qed.

Lemma ValidateChunks_true (h : heap) (chunks : list nat) :
  ValidateChunks h chunks = Some true <->
  (forall p, p ∈ chunks ->
     exists c, h !! p = Some c /\ Completed c = true /\ Failed c = false).
Proof.
  induction chunks as [|p rest IH]; cbn.
  - split; [intros _ q Hq; by apply elem_of_nil in Hq | done].
  - destruct (h !! p) as [c|] eqn:E.
    + destruct (Completed c) eqn:Ec, (Failed c) eqn:Ef; cbn.
      * split; [done|]. intros H. destruct (H p ltac:(left)) as (c' & ? & ? & ?).
        congruence.
      * rewrite IH. split.
        -- intros H q [->|Hq]%elem_of_cons; eauto.
        -- intros H q Hq. apply H. by right.
      * split; [done|]. intros H. destruct (H p ltac:(left)) as (c' & ? & ? & ?).
        congruence.
      * split; [done|]. intros H. destruct (H p ltac:(left)) as (c' & ? & ? & ?).
        congruence.
    + split; [done|]. intros H. destruct (H p ltac:(left)) as (c' & ? & ? & ?).
      congruence.
Qed.

(** C9. On a non-empty list of chunks [ValidateChunks] answers false as
    soon as one chunk is not completed or is failed, and answers true only
    when every chunk is completed and not failed. *)
Theorem ValidateChunks_spec (h : heap) (chunks : list nat) :
  chunks <> [] ->
  (forall p, p ∈ chunks -> is_Some (h !! p)) ->
  exists b, ValidateChunks h chunks = Some b /\
    ((exists p c, p ∈ chunks /\ h !! p = Some c /\
        (Completed c = false \/ Failed c = true)) -> b = false) /\
    (b = true <->
       forall p c, p ∈ chunks -> h !! p = Some c ->
         Completed c = true /\ Failed c = false).
Proof.
  intros _ Hv. destruct (ValidateChunks_total h chunks Hv) as [b Hb].
  exists b. split; [done|].
  assert (b = true <->
          forall p c, p ∈ chunks -> h !! p = Some c ->
            Completed c = true /\ Failed c = false) as Hiff.
  { split.
    - intros ->. pose proof (proj1 (ValidateChunks_true h chunks) Hb) as Hall.
      intros p c Hp Hc.
      destruct (Hall p Hp) as (c' & Hc' & ? & ?). by simplify_eq.
    - intros H. destruct b; [done|]. exfalso.
      assert (ValidateChunks h chunks = Some true) as Ht; [|congruence].
      apply ValidateChunks_true. intros p Hp. destruct (Hv p Hp) as [c Hc].
      exists c. split; [done|]. by apply (H p c). }
  split; [|done].
  intros (p & c & Hp & Hc & Hbad). destruct b; [|done].
  destruct Hiff as [Hall _]. destruct (Hall eq_refl p c Hp Hc) as [? ?].
  destruct Hbad; congruence.
Qed.

Lemma ValidateChunks_spec_witness :
  let c1 := mkChunk 1 "u" 0 1000 "/tmp/chunk_1" 1001 1001 true false 0 in
  let c2 := mkChunk 2 "u" 1001 2000 "/tmp/chunk_2" 1000 1000 true true 1 in
  ValidateChunks (<[2%nat := c2]> {[1%nat := c1]}) [1%nat; 2%nat] = Some false.
Proof.
  cbn zeta.
  destruct (ValidateChunks_spec
    (<[2%nat := mkChunk 2 "u" 1001 2000 "/tmp/chunk_2" 1000 1000 true true 1]>
       {[1%nat := mkChunk 1 "u" 0 1000 "/tmp/chunk_1" 1001 1001 true false 0]})
    [1%nat; 2%nat])
    as (b & Hb & Hfalse & _).
  - done.
  - intros p Hp. apply elem_of_cons in Hp as [->|Hp]; [by eexists|].
    apply elem_of_cons in Hp as [->|Hp]; [by eexists|].
    by apply elem_of_nil in Hp.
  - rewrite Hb. f_equal. apply Hfalse.
    exists 2%nat, (mkChunk 2 "u" 1001 2000 "/tmp/chunk_2" 1000 1000 true true 1).
    split; [apply elem_of_cons; right; apply elem_of_cons; by left|].
    split; [reflexivity | by right].
Defined.

(** ** The completion flag *)

Lemma NewChunk_Size join id url start end_ tempDir :
  is_int64 start -> is_int64 end_ -> start <= end_ -> end_ - start < int64_max ->
  Size (NewChunk join id url start end_ tempDir) = end_ - start + 1.
Proof. intros. cbn [Size NewChunk]. int64_simpl. done. Qed.

Lemma chunk_invariant_NewChunk join id url start end_ tempDir :
  0 < Size (NewChunk join id url start end_ tempDir) ->
  chunk_invariant (NewChunk join id url start end_ tempDir).
Proof.
  intros Hs. unfold chunk_invariant. cbn [Completed Downloaded NewChunk] in *.
  split; [done | lia].
Qed.

Lemma chunk_invariant_UpdateProgress c n :
  chunk_invariant c -> is_int64 (Downloaded c) -> 0 <= n ->
  Downloaded c + n <= int64_max ->
  chunk_invariant (UpdateProgress c n).
Proof.
  unfold chunk_invariant. intros Hinv Hd Hn Hb.
  rewrite UpdateProgress_Completed, UpdateProgress_Downloaded, UpdateProgress_Size.
  int64_simpl. destruct (Z.leb_spec (Size c) (Downloaded c + n)); [done|].
  split; [|lia]. intros Hc. apply Hinv in Hc. lia.
Qed.

Lemma chunk_invariant_MarkFailed c :
  chunk_invariant c -> chunk_invariant (MarkFailed c).
Proof. unfold chunk_invariant. by cbn. Qed.

Lemma chunk_invariant_weak_UpdateProgress c n :
  chunk_invariant_weak (UpdateProgress c n).
Proof.
  unfold chunk_invariant_weak.
  rewrite UpdateProgress_Completed, UpdateProgress_Downloaded, UpdateProgress_Size.
  intros H. destruct (Z.leb_spec (Size c) (add64 (Downloaded c) n)); [done | lia].
Qed.

(** C3, as the code has it. For a chunk made by [NewChunk] with
    [start <= end] (the size fits an [int64]), "[Completed] iff
    [Downloaded >= Size]" holds at creation and is kept by [UpdateProgress]
    with a non-negative count that [Downloaded] can hold, and by
    [MarkFailed]. [ResetForRetry] keeps it for a chunk that is not
    completed; for every chunk of positive size it keeps the half
    "[Downloaded >= Size] implies [Completed]", which all three operations
    keep. *)
Theorem chunk_invariant_preserved (join : string -> string -> string)
    (id : Z) (url : string) (start end_ : Z) (tempDir : string) :
  is_int64 start -> is_int64 end_ -> start <= end_ -> end_ - start < int64_max ->
  let c0 := NewChunk join id url start end_ tempDir in
  (chunk_invariant c0 /\ 0 < Size c0) /\
  (forall c n, chunk_invariant c -> is_int64 (Downloaded c) -> 0 <= n ->
     Downloaded c + n <= int64_max -> chunk_invariant (UpdateProgress c n)) /\
  (forall c, chunk_invariant c -> chunk_invariant (MarkFailed c)) /\
  (forall fs c, 0 < Size c -> Completed c = false ->
     chunk_invariant (ResetForRetry fs c).2) /\
  (forall fs c n, 0 < Size c -> chunk_invariant_weak c ->
     chunk_invariant_weak (UpdateProgress c n) /\
     chunk_invariant_weak (MarkFailed c) /\
     chunk_invariant_weak (ResetForRetry fs c).2).
Proof.
  intros Hs He Hle Hfit. cbn zeta.
  pose proof (NewChunk_Size join id url start end_ tempDir Hs He Hle Hfit) as Hsz.
  split; [split; [apply chunk_invariant_NewChunk|]; lia|].
  split; [apply chunk_invariant_UpdateProgress|].
  split; [apply chunk_invariant_MarkFailed|].
  split.
  - intros fs c Hpos Hc. unfold chunk_invariant. cbn. rewrite Hc.
    split; [done | lia].
  - intros fs c n Hpos Hw. split; [apply chunk_invariant_weak_UpdateProgress|].
    split; [exact Hw|]. unfold chunk_invariant_weak. cbn. lia.
Qed.

Lemma chunk_invariant_preserved_witness :
  chunk_invariant (NewChunk join_slash 1 "u" 0 1000 "/tmp") /\
  0 < Size (NewChunk join_slash 1 "u" 0 1000 "/tmp").
Proof.
  refine (proj1 (chunk_invariant_preserved join_slash 1 "u" 0 1000 "/tmp" _ _ _ _));
    unfold is_int64, int64_min, int64_max; lia.
Defined.

(** C3 as stated fails: a chunk of ten bytes that received its ten bytes is
    completed; after [ResetForRetry] it still says [Completed] with
    [Downloaded = 0]. *)
Lemma chunk_invariant_reset_counterexample :
  0 <= 9 /\ 0 <= 10 /\
  chunk_invariant (UpdateProgress (NewChunk join_slash 0 "u" 0 9 "/tmp") 10) /\
  ~ chunk_invariant
      (ResetForRetry ∅ (UpdateProgress (NewChunk join_slash 0 "u" 0 9 "/tmp") 10)).2.
Proof.
  split; [lia|]. split; [lia|]. unfold chunk_invariant. split.
  - cbn [Completed Downloaded Size UpdateProgress NewChunk].
    split; [intros _; by vm_compute | intros _; by vm_compute].
  - cbn [Completed Downloaded Size UpdateProgress NewChunk ResetForRetry snd].
    intros [H _]. assert (add64 (sub64 9 0) 1 <= 0) as Hle.
    { apply H. by vm_compute. }
    vm_compute in Hle. by apply Hle.
Qed.

(** ** Progress updates *)

Lemma foldl_UpdateProgress_Size counts c :
  Size (foldl UpdateProgress c counts) = Size c.
Proof. revert c. induction counts as [|n counts IH]; intros c; cbn; [done|by rewrite IH]. Qed.

Lemma total_bytes_cons n counts : total_bytes (n :: counts) = n + total_bytes counts.
Proof. reflexivity. Qed.

Lemma total_bytes_nonneg counts :
  Forall (fun n => 0 <= n) counts -> 0 <= total_bytes counts.
Proof. unfold total_bytes. induction 1; cbn; lia. Qed.

Lemma total_bytes_app counts1 counts2 :
  total_bytes (counts1 ++ counts2) = total_bytes counts1 + total_bytes counts2.
Proof. unfold total_bytes. induction counts1 as [|n counts1 IH]; cbn in *; lia. Qed.

Lemma foldl_UpdateProgress_Downloaded counts c :
  is_int64 (Downloaded c) ->
  Downloaded (foldl UpdateProgress c counts) =
    wrap64 (Downloaded c + total_bytes counts).
Proof.
  revert c. induction counts as [|n counts IH]; intros c Hd; cbn [foldl].
  - change (total_bytes []) with 0. rewrite Z.add_0_r. by rewrite wrap64_id.
  - rewrite IH by (rewrite UpdateProgress_Downloaded; apply wrap64_range).
    rewrite UpdateProgress_Downloaded, total_bytes_cons. unfold add64.
    rewrite wrap64_add_l. f_equal. lia.
Qed.

Lemma foldl_UpdateProgress_incomplete counts c :
  Forall (fun n => 0 <= n) counts ->
  0 <= Downloaded c -> Size c <= int64_max -> Completed c = false ->
  Downloaded c + total_bytes counts < Size c ->
  Completed (foldl UpdateProgress c counts) = false.
Proof.
  intros Hpos. revert c. induction Hpos as [|n counts Hn Hpos IH];
    intros c Hd Hs Hc Hlt; cbn [foldl] in *; [done|].
  rewrite total_bytes_cons in Hlt.
  pose proof (total_bytes_nonneg counts Hpos) as Ht.
  assert (add64 (Downloaded c) n = Downloaded c + n) as Hadd by (int64_simpl; done).
  apply IH.
  - rewrite UpdateProgress_Downloaded, Hadd. lia.
  - by rewrite UpdateProgress_Size.
  - rewrite UpdateProgress_Completed, Hadd.
    destruct (Z.leb_spec (Size c) (Downloaded c + n)); [lia | done].
  - rewrite UpdateProgress_Downloaded, UpdateProgress_Size, Hadd. lia.
Qed.

Lemma foldl_UpdateProgress_complete counts c :
  counts <> [] -> is_int64 (Downloaded c) -> is_int64 (Size c) ->
  Downloaded c + total_bytes counts = Size c ->
  Completed (foldl UpdateProgress c counts) = true.
Proof.
  intros Hne Hd Hs Hsum.
  destruct (exists_last Hne) as (init & n & ->).
  rewrite foldl_app. cbn [foldl].
  rewrite UpdateProgress_Completed, foldl_UpdateProgress_Size.
  replace (add64 (Downloaded (foldl UpdateProgress c init)) n) with (Size c).
  { by rewrite Z.leb_refl. }
  rewrite foldl_UpdateProgress_Downloaded by done. unfold add64.
  rewrite wrap64_add_l. rewrite total_bytes_app, total_bytes_cons in Hsum.
  change (total_bytes []) with 0 in Hsum.
  replace (Downloaded c + total_bytes init + n) with (Size c) by lia.
  by rewrite wrap64_id.
Qed.

(** C4. On a chunk of size [S] fresh from [NewChunk], after
    [UpdateProgress] with a finite sequence of non-negative byte counts
    [Downloaded] is the sum of the counts, as an [int64], and never more
    than that sum; when the sum is [S] the chunk is [Completed], and when
    the sum is below [S] it is not. The chunk has a positive size, or at
    least one count is applied. *)
Theorem UpdateProgress_total (join : string -> string -> string)
    (id : Z) (url : string) (start end_ : Z) (tempDir : string) (counts : list Z) :
  let c0 := NewChunk join id url start end_ tempDir in
  0 < Size c0 \/ counts <> [] ->
  Forall (fun n => 0 <= n) counts ->
  let c := foldl UpdateProgress c0 counts in
  Downloaded c = wrap64 (total_bytes counts) /\
  Downloaded c <= total_bytes counts /\
  (total_bytes counts <= int64_max -> Downloaded c = total_bytes counts) /\
  (total_bytes counts = Size c0 -> Completed c = true) /\
  (total_bytes counts < Size c0 -> Completed c = false).
Proof.
  cbn zeta. intros HS Hpos.
  set (c0 := NewChunk join id url start end_ tempDir) in *.
  pose proof (total_bytes_nonneg counts Hpos) as Ht.
  assert (is_int64 (Downloaded c0)) as Hd0
    by (unfold is_int64, int64_min, int64_max; cbn; lia).
  assert (is_int64 (Size c0)) as HS0 by apply wrap64_range.
  assert (Downloaded (foldl UpdateProgress c0 counts) = wrap64 (total_bytes counts)) as HD.
  { rewrite foldl_UpdateProgress_Downloaded by done. f_equal. }
  split; [done|]. rewrite HD.
  split; [by apply wrap64_le_nonneg|].
  split; [intros Hfit; apply wrap64_id; unfold is_int64, int64_min in *; lia|].
  split.
  - intros Hsum. apply foldl_UpdateProgress_complete; [|exact Hd0|exact HS0|].
    + intros ->. change (total_bytes []) with 0 in Hsum.
      destruct HS as [HS|HS]; [lia | done].
    + change (Downloaded c0) with 0. lia.
  - intros Hlt. apply foldl_UpdateProgress_incomplete; [exact Hpos| | |reflexivity|].
    + change (Downloaded c0) with 0. lia.
    + unfold is_int64 in HS0. lia.
    + change (Downloaded c0) with 0. lia.
Qed.

Lemma UpdateProgress_total_witness :
  (0 < Size (NewChunk join_slash 1 "u" 0 1000 "/tmp") \/ [500; 501] <> []) /\
  Forall (fun n => 0 <= n) [500; 501] /\
  Downloaded (foldl UpdateProgress (NewChunk join_slash 1 "u" 0 1000 "/tmp") [500; 501])
    = wrap64 (total_bytes [500; 501]).
Proof.
  assert (0 < Size (NewChunk join_slash 1 "u" 0 1000 "/tmp") \/ [500; 501] <> [])
    as HS by (left; by vm_compute).
  assert (Forall (fun n => 0 <= n) [500; 501]) as Hpos
    by (repeat constructor; lia).
  split; [exact HS|]. split; [exact Hpos|].
  exact (proj1 (UpdateProgress_total join_slash 1 "u" 0 1000 "/tmp" [500; 501] HS Hpos)).
Defined.

(** ** The planner *)

Section PlannerFacts.

Variable join : string -> string -> string.
Variables (url tempDir : string) (fileSize n : Z).
Hypothesis Hsize : 0 < fileSize <= int64_max.
Hypothesis Hn : 1 <= n <= fileSize.

Lemma chunk_size_bounds :
  1 <= fileSize / n /\ fileSize / n * n <= fileSize < fileSize / n * n + n.
Proof.
  pose proof (Z.div_mod fileSize n ltac:(lia)).
  pose proof (Z.mod_pos_bound fileSize n ltac:(lia)).
  assert (1 <= fileSize / n); [|nia].
  apply Z.div_le_lower_bound; lia.
Qed.

Lemma quot64_chunk_size : quot64 fileSize n = fileSize / n.
Proof.
  pose proof chunk_size_bounds. unfold quot64.
  rewrite Z.quot_div_nonneg by lia.
  apply wrap64_id. unfold is_int64, int64_min, int64_max in *. nia.
Qed.

Lemma CalculateChunks_loop_closed (fuel : nat) (i : Z) :
  0 <= i -> i + Z.of_nat fuel = n ->
  CalculateChunks_loop join url fileSize n (fileSize / n) tempDir fuel i =
    planned_chunk join url fileSize n tempDir <$> seqZ i (Z.of_nat fuel).
Proof.
  pose proof chunk_size_bounds as Hcs. set (cs := fileSize / n) in *.
  revert i. induction fuel as [|fuel IH]; intros i Hi Hsum; [done|].
  cbn [CalculateChunks_loop].
  rewrite seqZ_cons by lia. rewrite fmap_cons.
  destruct (Z.ltb_spec i n); [|lia].
  replace (Z.pred (Z.of_nat (S fuel))) with (Z.of_nat fuel) by lia.
  assert (add64 i 1 = Z.succ i) as -> by (int64_simpl; lia).
  rewrite IH by lia. f_equal.
  unfold planned_chunk. fold cs.
  assert (sub64 n 1 = n - 1) as -> by (int64_simpl; lia).
  assert (mul64 i cs = i * cs) as -> by (int64_simpl; lia).
  destruct (Z.eqb_spec i (n - 1)).
  - f_equal. int64_simpl. lia.
  - f_equal. int64_simpl. lia.
Qed.

Lemma planned_chunk_fields (k : Z) :
  0 <= k < n ->
  let c := planned_chunk join url fileSize n tempDir k in
  ID c = k /\ Start c = k * (fileSize / n) /\
  End_ c = (if k =? n - 1 then fileSize - 1
            else k * (fileSize / n) + fileSize / n - 1) /\
  Size c = End_ c - Start c + 1 /\
  Start c <= End_ c /\ 0 <= Start c /\ End_ c <= fileSize - 1.
Proof.
  pose proof chunk_size_bounds as Hcs. intros Hk. cbn zeta.
  unfold planned_chunk. set (cs := fileSize / n) in *.
  cbn [ID Start End_ Size NewChunk].
  split; [done|]. split; [done|]. split; [done|].
  destruct (Z.eqb_spec k (n - 1)).
  - split; [int64_simpl; lia|]. nia.
  - split; [int64_simpl; lia|]. nia.
Qed.

End PlannerFacts.

Lemma CalculateChunks_closed join url tempDir fileSize numChunks :
  0 < fileSize <= int64_max ->
  CalculateChunks join url fileSize numChunks tempDir =
    inr (planned_chunk join url fileSize (clamp_threads fileSize numChunks) tempDir
           <$> seqZ 0 (clamp_threads fileSize numChunks)).
Proof.
  intros Hsize. unfold CalculateChunks.
  destruct (Z.leb_spec fileSize 0); [lia|].
  set (n1 := if numChunks <=? 0 then 1 else numChunks).
  set (n := if fileSize <? n1 then fileSize else n1).
  assert (n = clamp_threads fileSize numChunks) as Hn.
  { unfold n, n1, clamp_threads.
    destruct (Z.leb_spec numChunks 0); case_match;
      repeat match goal with H : (_ <? _) = _ |- _ =>
        first [apply Z.ltb_lt in H | apply Z.ltb_ge in H] end; lia. }
  assert (1 <= n <= fileSize) as Hrange by (rewrite Hn; unfold clamp_threads; lia).
  rewrite (quot64_chunk_size fileSize n Hsize Hrange).
  rewrite (CalculateChunks_loop_closed join url tempDir fileSize n Hsize Hrange)
    by lia.
  rewrite Z2Nat.id by lia. by rewrite Hn.
Qed.

Lemma planned_lookup join url tempDir fileSize n (k : nat) c :
  0 <= n ->
  (planned_chunk join url fileSize n tempDir <$> seqZ 0 n) !! k = Some c <->
  Z.of_nat k < n /\ c = planned_chunk join url fileSize n tempDir (Z.of_nat k).
Proof.
  intros Hn. rewrite list_lookup_fmap. split.
  - intros H. destruct (seqZ 0 n !! k) as [j|] eqn:E; [|done].
    apply lookup_seqZ in E as [-> ?]. cbn in H. simplify_eq. split; [lia|].
    f_equal.
  - intros [Hk ->]. rewrite (proj2 (lookup_seqZ 0 n k (Z.of_nat k))); [done|]. lia.
Qed.

(** C1. For [contentLength > 0] and any requested thread count
    [CalculateChunks] succeeds, and the inclusive ranges of its chunks are
    contiguous, do not overlap and cover [0, contentLength-1] exactly: chunk
    0 starts at 0, each next chunk starts one past the end of the one
    before, every chunk but the last has size [contentLength / threadCount]
    (thread count after clamping), and the last ends at
    [contentLength - 1]. *)
Theorem CalculateChunks_partition (join : string -> string -> string)
    (url tempDir : string) (fileSize numChunks : Z) :
  0 < fileSize <= int64_max ->
  exists chunks,
    CalculateChunks join url fileSize numChunks tempDir = inr chunks /\
    let n := clamp_threads fileSize numChunks in
    Z.of_nat (length chunks) = n /\
    (forall (k : nat) c, chunks !! k = Some c ->
       ID c = Z.of_nat k /\
       Start c <= End_ c /\ Size c = End_ c - Start c + 1 /\
       (k = 0%nat -> Start c = 0) /\
       (forall c', chunks !! S k = Some c' -> Start c' = End_ c + 1) /\
       (Z.of_nat k < n - 1 -> Size c = fileSize / n) /\
       (Z.of_nat k = n - 1 -> End_ c = fileSize - 1)) /\
    (forall b, 0 <= b <= fileSize - 1 <->
       exists (k : nat) c, chunks !! k = Some c /\ covers c b) /\
    (forall (k1 k2 : nat) c1 c2 b,
       chunks !! k1 = Some c1 -> chunks !! k2 = Some c2 ->
       covers c1 b -> covers c2 b -> k1 = k2).
Proof.
  intros Hsize. eexists. split; [by apply CalculateChunks_closed|].
  cbn zeta. set (n := clamp_threads fileSize numChunks).
  assert (1 <= n <= fileSize) as Hn by (unfold n, clamp_threads; lia).
  pose proof (chunk_size_bounds fileSize n Hsize Hn) as Hcs.
  pose proof (planned_chunk_fields join url tempDir fileSize n Hsize Hn) as Hf.
  cbn zeta in Hf.
  assert (forall (k : nat) c,
    (planned_chunk join url fileSize n tempDir <$> seqZ 0 n) !! k = Some c ->
    0 <= Z.of_nat k < n /\ ID c = Z.of_nat k /\ Start c = Z.of_nat k * (fileSize / n) /\
    End_ c = (if Z.of_nat k =? n - 1 then fileSize - 1
              else Z.of_nat k * (fileSize / n) + fileSize / n - 1) /\
    Size c = End_ c - Start c + 1 /\ Start c <= End_ c /\
    0 <= Start c /\ End_ c <= fileSize - 1) as Hlk.
  { intros k c [Hk ->]%planned_lookup; [|lia].
    split; [lia|]. apply Hf. lia. }
  split; [rewrite length_fmap, length_seqZ; lia|].
  split; [|split].
  - intros k c Hc. destruct (Hlk k c Hc) as (Hk & Hid & Hst & Hen & Hsz & Hle & _).
    split; [done|]. split; [done|]. split; [done|].
    split; [intros ->; lia|].
    split; [|split].
    + intros c' Hc'. destruct (Hlk (S k) c' Hc') as (Hk' & _ & Hst' & _).
      rewrite Hst', Hen. destruct (Z.eqb_spec (Z.of_nat k) (n - 1)); lia.
    + intros Hlt. rewrite Hsz, Hen, Hst.
      destruct (Z.eqb_spec (Z.of_nat k) (n - 1)); lia.
    + intros Heq. rewrite Hen. destruct (Z.eqb_spec (Z.of_nat k) (n - 1)); lia.
  - intros b. split.
    + intros Hb.
      set (q := Z.min (b / (fileSize / n)) (n - 1)).
      pose proof (Z.div_mod b (fileSize / n) ltac:(lia)) as Hdm.
      pose proof (Z.mod_pos_bound b (fileSize / n) ltac:(lia)) as Hmb.
      assert (0 <= b / (fileSize / n)) as Hq0 by (apply Z.div_pos; lia).
      assert (0 <= q < n) as Hq by (unfold q; lia).
      exists (Z.to_nat q), (planned_chunk join url fileSize n tempDir q).
      split.
      * apply planned_lookup; [lia|]. rewrite Z2Nat.id by lia. split; [lia | done].
      * destruct (Hf q Hq) as (_ & Hst & Hen & _). unfold covers.
        rewrite Hst, Hen. destruct (Z.eqb_spec q (n - 1)) as [Hlast|Hnl].
        -- split; [|lia]. unfold q in *. nia.
        -- assert (q = b / (fileSize / n)) as Hqe by (unfold q in *; lia).
           rewrite Hqe. nia.
    + intros (k & c & Hc & Hcov). unfold covers in Hcov.
      destruct (Hlk k c Hc) as (_ & _ & _ & _ & _ & _ & ? & ?). lia.
  - intros k1 k2 c1 c2 b Hc1 Hc2 Hcov1 Hcov2. unfold covers in *.
    destruct (Hlk k1 c1 Hc1) as (Hk1 & _ & Hst1 & Hen1 & _).
    destruct (Hlk k2 c2 Hc2) as (Hk2 & _ & Hst2 & Hen2 & _).
    rewrite Hst1, Hen1 in Hcov1. rewrite Hst2, Hen2 in Hcov2.
    destruct (Z.eqb_spec (Z.of_nat k1) (n - 1)), (Z.eqb_spec (Z.of_nat k2) (n - 1));
      apply Nat2Z.inj; nia.
Qed.

Lemma CalculateChunks_partition_witness :
  0 < 10000 <= int64_max /\
  exists chunks,
    CalculateChunks join_slash "u" 10000 4 "/tmp" = inr chunks /\
    Z.of_nat (length chunks) = clamp_threads 10000 4.
Proof.
  assert (0 < 10000 <= int64_max) as H by (unfold int64_max; lia).
  split; [exact H|].
  destruct (CalculateChunks_partition join_slash "u" "/tmp" 10000 4 H)
    as (chunks & Hc & Hlen & _).
  exists chunks. split; [exact Hc | exact Hlen].
Defined.

(** C7. For [contentLength > 0] the number of chunks is the requested
    thread count clamped to at least 1 and at most [contentLength]: a count
    [<= 0] gives one chunk over the whole file, a count above
    [contentLength] gives [contentLength] chunks of size 1. *)
Theorem CalculateChunks_count (join : string -> string -> string)
    (url tempDir : string) (fileSize numChunks : Z) :
  0 < fileSize <= int64_max ->
  exists chunks,
    CalculateChunks join url fileSize numChunks tempDir = inr chunks /\
    Z.of_nat (length chunks) = clamp_threads fileSize numChunks /\
    1 <= clamp_threads fileSize numChunks <= fileSize /\
    (0 < numChunks <= fileSize -> Z.of_nat (length chunks) = numChunks) /\
    (numChunks <= 0 ->
       exists c, chunks = [c] /\ Start c = 0 /\ End_ c = fileSize - 1 /\
                 Size c = fileSize) /\
    (fileSize < numChunks ->
       Z.of_nat (length chunks) = fileSize /\
       forall c, c ∈ chunks -> Size c = 1).
Proof.
  intros Hsize. eexists. split; [by apply CalculateChunks_closed|].
  set (n := clamp_threads fileSize numChunks).
  assert (1 <= n <= fileSize) as Hn by (unfold n, clamp_threads; lia).
  pose proof (planned_chunk_fields join url tempDir fileSize n Hsize Hn) as Hf.
  cbn zeta in Hf.
  assert (Z.of_nat (length (planned_chunk join url fileSize n tempDir <$> seqZ 0 n)) = n)
    as Hlen by (rewrite length_fmap, length_seqZ; lia).
  split; [done|]. split; [done|].
  split; [intros ?; rewrite Hlen; unfold n, clamp_threads; lia|].
  split.
  - intros Hle. assert (n = 1) as Hn1 by (unfold n, clamp_threads; lia).
    rewrite Hn1 in *. exists (planned_chunk join url fileSize 1 tempDir 0).
    split; [done|]. destruct (Hf 0 ltac:(lia)) as (_ & Hst & Hen & Hsz & _).
    change (0 =? 1 - 1) with true in Hen. rewrite Hsz, Hst, Hen. lia.
  - intros Hgt. assert (n = fileSize) as Hnf by (unfold n, clamp_threads; lia).
    split; [lia|]. intros c Hc.
    apply list_elem_of_lookup in Hc as [k Hk].
    apply planned_lookup in Hk as [Hk ->]; [|lia].
    destruct (Hf (Z.of_nat k) ltac:(lia)) as (_ & Hst & Hen & Hsz & _).
    rewrite Hsz, Hst, Hen, Hnf, Z.div_same by lia.
    destruct (Z.eqb_spec (Z.of_nat k) (fileSize - 1)); lia.
Qed.

Lemma CalculateChunks_count_witness :
  0 < 3 <= int64_max /\
  exists chunks,
    CalculateChunks join_slash "u" 3 8 "/tmp" = inr chunks /\
    Z.of_nat (length chunks) = 3.
Proof.
  assert (0 < 3 <= int64_max) as H by (unfold int64_max; lia).
  split; [exact H|].
  destruct (CalculateChunks_count join_slash "u" "/tmp" 3 8 H)
    as (chunks & Hc & _ & _ & _ & _ & Hmany).
  exists chunks. split; [exact Hc|]. apply Hmany. lia.
Defined.

(** ** The merger *)

Lemma buffer_len_pos : (0 < buffer_len)%nat.
Proof. unfold buffer_len. lia. Qed.

Lemma take_buffer_nil (l : list byte) : take buffer_len l = [] -> l = [].
Proof.
  pose proof buffer_len_pos. destruct l as [|x l]; [done|].
  destruct buffer_len; [lia | done].
Qed.

Lemma take_drop_taken (n : nat) (l : list byte) :
  take n l ++ drop (length (take n l)) l = l.
Proof.
  destruct (decide (n <= length l)%nat) as [Hle|Hgt].
  - rewrite length_take_le by done. apply take_drop.
  - rewrite take_ge by lia. rewrite drop_all. apply app_nil_r.
Qed.

Lemma take_drop_step (n offset : nat) (l : list byte) :
  take n (drop offset l) ++ drop (offset + length (take n (drop offset l))) l
    = drop offset l.
Proof. rewrite <- drop_drop. apply take_drop_taken. Qed.

Lemma content_of_Some (fs : filesys) (path : string) (content : list byte) :
  fs !! path = Some content -> content_of fs path = content.
Proof. unfold content_of. by intros ->. Qed.

(** With the source and the destination apart, enough fuel and the
    destination in place, [CopyBuffer] appends what is left of the source. *)
Lemma CopyBuffer_append (fuel : nat) (fs : filesys) (dst src : string)
    (offset : nat) (content d : list byte) :
  dst <> src -> fs !! src = Some content -> fs !! dst = Some d ->
  (length content - offset < fuel)%nat ->
  CopyBuffer fuel fs dst src offset = Some (<[dst := d ++ drop offset content]> fs).
Proof.
  intros Hne. revert fs offset d.
  induction fuel as [|fuel IH]; intros fs offset d Hsrc Hdst Hfuel; [lia|].
  cbn [CopyBuffer].
  rewrite (content_of_Some _ _ _ Hsrc), (content_of_Some _ _ _ Hdst).
  destruct (take buffer_len (drop offset content)) as [|x data] eqn:E.
  - apply take_buffer_nil in E. rewrite E, app_nil_r. by rewrite insert_id.
  - rewrite <- E.
    assert (0 < length (take buffer_len (drop offset content)))%nat as Hpos
      by (rewrite E; cbn; lia).
    assert (length (take buffer_len (drop offset content)) <= length content - offset)%nat
      as Hle by (rewrite length_take, length_drop; lia).
    rewrite (IH _ _ (d ++ take buffer_len (drop offset content))).
    + rewrite insert_insert_eq, <- app_assoc. by rewrite take_drop_step.
    + by rewrite lookup_insert_ne.
    + by rewrite lookup_insert_eq.
    + lia.
Qed.

Lemma merge_fuel_enough (fs : filesys) (inputPaths : list string) (p : string) :
  p ∈ inputPaths -> (length (content_of fs p) < merge_fuel fs inputPaths)%nat.
Proof.
  unfold merge_fuel. induction inputPaths as [|q rest IH]; intros Hp.
  - by apply elem_of_nil in Hp.
  - apply elem_of_cons in Hp as [->|Hp]; cbn; [lia|]. specialize (IH Hp). lia.
Qed.

Lemma MergeFiles_loop_concat (fuel : nat) (fs : filesys) (outputPath : string)
    (inputPaths : list string) (d : list byte) :
  outputPath ∉ inputPaths ->
  (forall p, p ∈ inputPaths -> is_Some (fs !! p)) ->
  (forall p, p ∈ inputPaths -> (length (content_of fs p) < fuel)%nat) ->
  fs !! outputPath = Some d ->
  MergeFiles_loop fuel fs outputPath inputPaths =
    Ret (<[outputPath := d ++ concat (content_of fs <$> inputPaths)]> fs, None).
Proof.
  revert fs d. induction inputPaths as [|p rest IH]; intros fs d Hout Hin Hfuel Hd.
  - cbn. rewrite app_nil_r. by rewrite insert_id.
  - apply not_elem_of_cons in Hout as [Hne Hout].
    cbn [MergeFiles_loop]. destruct (Hin p ltac:(left)) as [content Hp].
    rewrite Hp.
    pose proof (Hfuel p ltac:(left)) as Hf.
    rewrite (content_of_Some _ _ _ Hp) in Hf.
    rewrite (CopyBuffer_append fuel fs outputPath p 0 content d) by (done || lia).
    rewrite drop_0.
    assert (forall q, q ∈ rest ->
              content_of (<[outputPath := d ++ content]> fs) q = content_of fs q) as Hsame.
    { intros q Hq. unfold content_of. rewrite lookup_insert_ne; [done|].
      intros ->. done. }
    rewrite (IH _ (d ++ content)).
    + rewrite insert_insert_eq. do 3 f_equal. rewrite <- app_assoc. f_equal.
      rewrite fmap_cons. cbn [concat]. rewrite (content_of_Some _ _ _ Hp).
      f_equal. f_equal. apply Forall_fmap_ext, Forall_forall.
      intros q Hq. by apply Hsame.
    + done.
    + intros q Hq. rewrite lookup_insert_ne by (intros ->; done).
      apply Hin. by right.
    + intros q Hq. rewrite Hsame by done. apply Hfuel. by right.
    + by rewrite lookup_insert_eq.
Qed.

Lemma GetTempFilePaths_order (h : heap) (chunks : list nat) (paths : list string) :
  GetTempFilePaths h chunks = Some paths ->
  Forall2 (fun p path => TempFile <$> h !! p = Some path) chunks paths.
Proof.
  revert paths. induction chunks as [|p rest IH]; intros paths H; cbn in H.
  - simplify_eq. constructor.
  - destruct (h !! p) as [c|] eqn:E; [|done].
    destruct (GetTempFilePaths h rest) as [paths'|]; [|done]. simplify_eq.
    constructor; [by rewrite E | by apply IH].
Qed.

Lemma MergeFiles_run (fuel : nat) (fs : filesys) (outputPath : string)
    (inputPaths : list string) :
  outputPath ∉ inputPaths ->
  (forall p, p ∈ inputPaths -> is_Some (fs !! p)) ->
  (merge_fuel fs inputPaths <= fuel)%nat ->
  MergeFiles fuel fs outputPath inputPaths =
    Ret (<[outputPath := concat (content_of fs <$> inputPaths)]> fs, None).
Proof.
  intros Hout Hin Hfuel. unfold MergeFiles, CreateFile.
  rewrite (MergeFiles_loop_concat fuel _ outputPath inputPaths []).
  - rewrite insert_insert_eq. cbn [app]. do 4 f_equal.
    apply Forall_fmap_ext, Forall_forall. intros q Hq. unfold content_of.
    rewrite lookup_insert_ne; [done|]. by intros ->.
  - done.
  - intros p Hp. rewrite lookup_insert_ne by (by intros ->). by apply Hin.
  - intros p Hp. unfold content_of.
    rewrite lookup_insert_ne by (by intros ->).
    pose proof (merge_fuel_enough fs inputPaths p Hp) as Hlt.
    unfold content_of in Hlt. lia.
  - by rewrite lookup_insert_eq.
Qed.

Lemma content_of_same (fs1 fs2 : filesys) (paths : list string) :
  (forall p, p ∈ paths -> fs2 !! p = fs1 !! p) ->
  content_of fs2 <$> paths = content_of fs1 <$> paths.
Proof.
  intros Hsame. apply Forall_fmap_ext, Forall_forall. intros p Hp.
  unfold content_of. by rewrite Hsame.
Qed.

(** C2. [MergeFiles] leaves in the output file the contents of the input
    files, one after the other in the order given, which for
    [mergeChunks] is the order of the chunks that [GetTempFilePaths] keeps.
    Merging a file [A] of 2 bytes and then a file [B] of 3 bytes gives 5
    bytes, [A] first and [B] next. The result is decided by what the input
    files hold when the merge starts: any file system in which they hold
    the same bytes gives the same output, whichever chunk was written
    first. The inputs exist and the output is not one of them. *)
Theorem MergeFiles_concat (fs : filesys) (outputPath : string)
    (inputPaths : list string) :
  outputPath ∉ inputPaths ->
  (forall p, p ∈ inputPaths -> is_Some (fs !! p)) ->
  (forall fuel, (merge_fuel fs inputPaths <= fuel)%nat ->
     exists fs',
       MergeFiles fuel fs outputPath inputPaths = Ret (fs', None) /\
       fs' !! outputPath = Some (concat (content_of fs <$> inputPaths)) /\
       forall p, p <> outputPath -> fs' !! p = fs !! p) /\
  (forall (h : heap) (Chunks : list nat) fuel,
     GetTempFilePaths h Chunks = Some inputPaths ->
     (merge_fuel fs inputPaths <= fuel)%nat ->
     Forall2 (fun p path => TempFile <$> h !! p = Some path) Chunks inputPaths /\
     exists fs',
       mergeChunks fuel fs h outputPath Chunks = Ret (fs', None) /\
       fs' !! outputPath = Some (concat (content_of fs <$> inputPaths))) /\
  (forall a b A B fuel,
     inputPaths = [a; b] -> fs !! a = Some A -> fs !! b = Some B ->
     length A = 2%nat -> length B = 3%nat ->
     (merge_fuel fs inputPaths <= fuel)%nat ->
     exists fs' out,
       MergeFiles fuel fs outputPath inputPaths = Ret (fs', None) /\
       fs' !! outputPath = Some out /\
       length out = 5%nat /\ take 2 out = A /\ drop 2 out = B) /\
  (forall (fs2 : filesys) fuel,
     (forall p, p ∈ inputPaths -> fs2 !! p = fs !! p) ->
     (merge_fuel fs inputPaths <= fuel)%nat ->
     exists fs2',
       MergeFiles fuel fs2 outputPath inputPaths = Ret (fs2', None) /\
       fs2' !! outputPath = Some (concat (content_of fs <$> inputPaths))).
Proof.
  intros Hout Hin.
  pose proof (fun fuel => MergeFiles_run fuel fs outputPath inputPaths Hout Hin)
    as Hmerge.
  split; [|split; [|split]].
  - intros fuel Hfuel. eexists. split; [by apply Hmerge|].
    split; [by rewrite lookup_insert_eq|].
    intros p Hp. by rewrite lookup_insert_ne.
  - intros h Chunks fuel Hpaths Hfuel. split; [by apply GetTempFilePaths_order|].
    eexists. unfold mergeChunks. rewrite Hpaths, Hmerge by done.
    split; [done|]. by rewrite lookup_insert_eq.
  - intros a b A B fuel -> Ha Hb HA HB Hfuel.
    exists (<[outputPath := concat (content_of fs <$> [a; b])]> fs), (A ++ B).
    split; [by apply Hmerge|].
    split.
    + rewrite lookup_insert_eq. cbn.
      rewrite (content_of_Some _ _ _ Ha), (content_of_Some _ _ _ Hb).
      by rewrite app_nil_r.
    + split; [rewrite length_app; lia|].
      split; [by rewrite <- HA, take_app_length | by rewrite <- HA, drop_app_length].
  - intros fs2 fuel Hsame Hfuel.
    pose proof (content_of_same fs fs2 inputPaths Hsame) as Hcontent.
    eexists. split.
    + apply MergeFiles_run; [done| |].
      * intros p Hp. rewrite Hsame by done. by apply Hin.
      * unfold merge_fuel in *.
        replace ((fun p => length (content_of fs2 p)) <$> inputPaths)
          with ((fun p => length (content_of fs p)) <$> inputPaths); [done|].
        apply Forall_fmap_ext, Forall_forall. intros p Hp.
        unfold content_of. by rewrite Hsame.
    + by rewrite lookup_insert_eq, Hcontent.
Qed.

Lemma MergeFiles_concat_witness :
  exists fs',
    MergeFiles 4 (<["b" := [Byte.x03; Byte.x04; Byte.x05]]> {["a" := [Byte.x01; Byte.x02]]})
      "out" ["a"; "b"] = Ret (fs', None) /\
    fs' !! "out" = Some [Byte.x01; Byte.x02; Byte.x03; Byte.x04; Byte.x05].
Proof.
  assert ("out" ∉ ["a"; "b"]) as Hout.
  { intros H. apply elem_of_cons in H as [H|H]; [discriminate H|].
    apply elem_of_cons in H as [H|H]; [discriminate H|].
    by apply elem_of_nil in H. }
  assert (forall p : string, p ∈ ["a"; "b"] ->
            is_Some ((<["b" := [Byte.x03; Byte.x04; Byte.x05]]>
                        {["a" := [Byte.x01; Byte.x02]]} : filesys) !! p)) as Hin.
  { intros p H. apply elem_of_cons in H as [->|H]; [by eexists|].
    apply elem_of_cons in H as [->|H]; [by eexists|].
    by apply elem_of_nil in H. }
  destruct (MergeFiles_concat _ "out" ["a"; "b"] Hout Hin) as (Hgen & _).
  destruct (Hgen 4%nat) as (fs' & Hrun & Hcontent & _).
  { vm_compute. lia. }
  exists fs'. split; [exact Hrun | exact Hcontent].
Defined.

(** ** Counting over the pool *)

Lemma sum_over_nil {A} (f : A -> nat) : sum_over f [] = 0%nat.
Proof. reflexivity. Qed.

Lemma sum_over_cons {A} (f : A -> nat) (x : A) (l : list A) :
  sum_over f (x :: l) = (f x + sum_over f l)%nat.
Proof. reflexivity. Qed.

Lemma sum_over_app {A} (f : A -> nat) (l1 l2 : list A) :
  sum_over f (l1 ++ l2) = (sum_over f l1 + sum_over f l2)%nat.
Proof.
  induction l1 as [|x l1 IH]; [done|].
  rewrite <- app_comm_cons, !sum_over_cons, IH. lia.
Qed.

Lemma sum_over_snoc {A} (f : A -> nat) (l : list A) (x : A) :
  sum_over f (l ++ [x]) = (sum_over f l + f x)%nat.
Proof. rewrite sum_over_app, sum_over_cons. change (sum_over f []) with 0%nat. lia. Qed.

Lemma sum_over_insert {A} (f : A -> nat) (l : list A) (i : nat) (x y : A) :
  l !! i = Some x ->
  (sum_over f (<[i := y]> l) + f x = sum_over f l + f y)%nat.
Proof.
  revert i. induction l as [|z l IH]; intros [|i] H; cbn in H; simplify_eq.
  - change (<[0%nat := y]> (x :: l)) with (y :: l). rewrite !sum_over_cons. lia.
  - change (<[S i := y]> (z :: l)) with (z :: <[i := y]> l).
    rewrite !sum_over_cons. specialize (IH i H). lia.
Qed.

Lemma sum_over_lookup_le {A} (f : A -> nat) (l : list A) (i : nat) (x : A) :
  l !! i = Some x -> (f x <= sum_over f l)%nat.
Proof.
  revert i. induction l as [|z l IH]; intros [|i] H; cbn in H; simplify_eq.
  - rewrite sum_over_cons. lia.
  - rewrite sum_over_cons. specialize (IH i H). lia.
Qed.

Lemma sum_over_zero {A} (f : A -> nat) (l : list A) :
  sum_over f l = 0%nat -> forall x, x ∈ l -> f x = 0%nat.
Proof.
  induction l as [|z l IH]; intros H x Hx.
  - by apply elem_of_nil in Hx.
  - rewrite sum_over_cons in H.
    apply elem_of_cons in Hx as [->|Hx]; [lia|]. apply IH; [lia | done].
Qed.

Lemma additive_app mu l1 l2 : additive mu -> mu (l1 ++ l2) = (mu l1 + mu l2)%nat.
Proof.
  intros [H0 Hc]. induction l1 as [|x l1 IH]; cbn; [lia|].
  rewrite (Hc x (l1 ++ l2)), (Hc x l1), IH. lia.
Qed.

Lemma additive_length : additive (@length nat).
Proof. split; [done|]. intros x l. cbn. lia. Qed.

Lemma additive_occ p : additive (occ p).
Proof.
  split; [done|]. intros x l. unfold occ. cbn. destruct (Nat.eq_dec x p); lia.
Qed.

Lemma occ_permutation (l1 l2 : list nat) :
  (forall p, occ p l1 = occ p l2) -> l1 ≡ₚ l2.
Proof. intros H. apply (Permutation_count_occ Nat.eq_dec). intros p. apply H. Qed.

Lemma occ_pos_elem_of (p : nat) (l : list nat) : (0 < occ p l)%nat -> p ∈ l.
Proof. intros H. apply list_elem_of_In, (count_occ_In Nat.eq_dec). unfold occ in H. lia. Qed.

Ltac additive_norm Hmu :=
  repeat first
    [ rewrite fmap_app
    | rewrite fmap_cons
    | rewrite fmap_nil
    | rewrite (additive_app _ _ _ Hmu)
    | rewrite (proj1 Hmu)
    | match goal with
      | |- context [?mu (?x :: ?l)] =>
          lazymatch l with
          | [] => fail
          | _ => rewrite (proj2 Hmu x l)
          end
      end ].

Ltac additive_norm_in Hmu H :=
  repeat first
    [ rewrite fmap_app in H
    | rewrite fmap_cons in H
    | rewrite fmap_nil in H
    | rewrite (additive_app _ _ _ Hmu) in H
    | rewrite (proj1 Hmu) in H
    | match type of H with
      | context [?mu (?x :: ?l)] =>
          lazymatch l with
          | [] => fail
          | _ => rewrite (proj2 Hmu x l) in H
          end
      end ].

(** ** The pool keeps its books *)

Lemma pool_inv_init fs h nw chunks : pool_inv h nw chunks (pool_init fs h nw chunks).
Proof.
  constructor; cbn; try done.
  - intros mu Hmu. additive_norm Hmu. rewrite sum_over_nil. lia.
  - intros H. by apply elem_of_nil in H.
  - lia.
Qed.

Lemma pool_inv_step_main h0 nw chunks s s' :
  nw <= int64_max ->
  pool_inv h0 nw chunks s -> step_main chunks s = Some s' ->
  pool_inv h0 nw chunks s'.
Proof.
  intros Hnw [Halive Hnum Hcap Hacc Hwg Hqc Hws Hrc Hwaited Hret Hex Hsp Hheap] Hstep.
  unfold step_main in Hstep.
  destruct s as [fs h nw' m ws wt q r g pk]. cbn in *. subst nw' pk.
  destruct m as [i|rest|chunk rest| | |rs|rs]; cbn in *.
  - destruct (Z.ltb_spec i nw); simplify_eq; constructor; cbn; try done.
    + intros mu Hmu. specialize (Hacc mu Hmu). rewrite sum_over_snoc. cbn [held].
      additive_norm Hmu. additive_norm_in Hmu Hacc. lia.
    + rewrite sum_over_snoc. cbn [busy]. lia.
    + intros [Hin|Hin]%elem_of_app; [by apply Hex|].
      by apply list_elem_of_singleton in Hin.
    + rewrite length_app. cbn [length].
      assert (add64 i 1 = i + 1) as -> by (int64_simpl; lia). lia.
    + lia.
  - destruct rest as [|chunk rest]; simplify_eq; constructor; cbn; try done.
    + lia.
    + by destruct wt.
  - unfold chan_send in Hstep. rewrite Hqc in Hstep.
    destruct (Nat.ltb_spec (length (buffer q)) (capacity q)); simplify_eq.
    constructor; cbn; try done.
    + intros mu Hmu. specialize (Hacc mu Hmu).
      additive_norm Hmu. additive_norm_in Hmu Hacc. lia.
    + rewrite length_app. cbn [length]. lia.
    + intros Hin. destruct (Hex Hin) as [Hc _]. congruence.
  - unfold chan_close in Hstep. rewrite Hqc in Hstep. simplify_eq.
    constructor; cbn; try done.
    intros Hin. destruct (Hex Hin) as [Hc _]. congruence.
  - simplify_eq. by destruct wt.
  - unfold chan_recv in Hstep. destruct (buffer r) as [|result rbuf] eqn:Hbuf.
    + destruct (closed r) eqn:Hcl; simplify_eq.
      constructor; cbn; rewrite ?Hbuf, ?Hcl; done.
    + simplify_eq. constructor; cbn; try done.
      intros mu Hmu. specialize (Hacc mu Hmu).
      additive_norm Hmu. additive_norm_in Hmu Hacc. cbn [Result_Chunk] in *. lia.
  - done.
Qed.

Lemma pool_inv_step_waiter h0 nw chunks s s' :
  pool_inv h0 nw chunks s -> step_waiter s = Some s' ->
  pool_inv h0 nw chunks s'.
Proof.
  intros [Halive Hnum Hcap Hacc Hwg Hqc Hws Hrc Hwaited Hret Hex Hsp Hheap] Hstep.
  unfold step_waiter in Hstep.
  destruct s as [fs h nw' m ws wt q r g pk]. cbn in *. subst nw' pk.
  destruct wt; cbn in *; try done.
  - destruct (Z.eqb_spec g 0); simplify_eq. by constructor; cbn.
  - unfold chan_close in Hstep. rewrite Hrc in Hstep. simplify_eq.
    constructor; cbn; try done.
    intros Hr. destruct (Hret Hr) as [Hc _]. congruence.
Qed.

Lemma elem_of_insert_inv {A} (l : list A) (i : nat) (x y : A) :
  x ∈ <[i := y]> l -> x = y \/ x ∈ l.
Proof.
  intros [j Hj]%list_elem_of_lookup.
  apply list_lookup_insert_Some in Hj as [(_ & -> & _)|[_ Hj]]; [by left|].
  right. by eapply list_elem_of_lookup_2.
Qed.

(** A chunk in a worker's hands is one of the chunks given to the pool. *)
Lemma held_elem_of h0 nw chunks s (i : nat) w c :
  pool_inv h0 nw chunks s -> workers s !! i = Some w -> c ∈ held w -> c ∈ chunks.
Proof.
  intros Hinv Hw Hc. apply occ_pos_elem_of.
  rewrite (inv_account _ _ _ _ Hinv (occ c) (additive_occ c)).
  pose proof (sum_over_lookup_le (fun w => occ c (held w)) _ _ _ Hw) as Hle.
  cbn beta in Hle.
  assert (0 < occ c (held w))%nat; [|lia].
  unfold occ. apply (count_occ_In Nat.eq_dec). by apply list_elem_of_In.
Qed.

(** The retry loop runs at least once: it never hands back a nil response
    with a nil error. *)
Lemma DoRequestWithRetry_not_nil answers : DoRequestWithRetry answers <> inl None.
Proof.
  unfold DoRequestWithRetry.
  change (S (Z.to_nat maxRetries)) with 4%nat.
  cbn [DoRequestWithRetry_loop].
  change (0 <? maxRetries) with true. cbn iota.
  change (add64 0 1) with 1. change (1 <? maxRetries) with true.
  change (add64 1 1) with 2. change (2 <? maxRetries) with true.
  change (add64 2 1) with 3. change (3 <? maxRetries) with false. cbn iota.
  repeat case_match; done.
Qed.

Lemma downloadChunk_is_Some env fs h p :
  is_Some (h !! p) -> is_Some (downloadChunk env fs h p).
Proof.
  intros [c Hc]. unfold downloadChunk. rewrite Hc.
  pose proof (DoRequestWithRetry_not_nil (answers env)).
  repeat case_match; simplify_eq; eauto.
Qed.

Lemma downloadChunk_heap env fs h p fs' h' err q :
  downloadChunk env fs h p = Some (fs', h', err) ->
  is_Some (h !! q) -> is_Some (h' !! q).
Proof.
  unfold downloadChunk. intros H Hq.
  repeat case_match; simplify_eq; try done.
  by apply lookup_insert_is_Some'; right.
Qed.

Ltac pool_account Hacc Hmuheld :=
  let mu := fresh "mu" in
  let Hmu := fresh "Hmu" in
  intros mu Hmu; specialize (Hacc mu Hmu);
  try match goal with
      | |- context [<[_ := ?y]> _] =>
          let Hh := fresh "Hh" in
          pose proof (Hmuheld mu y) as Hh;
          cbn [held Result_Chunk] in Hh; additive_norm_in Hmu Hh
      end;
  cbn [held Result_Chunk] in *; additive_norm Hmu; additive_norm_in Hmu Hacc; lia.

Ltac pool_busy Hbusy :=
  try match goal with
      | |- context [<[_ := ?y]> _] =>
          let Hb := fresh "Hb" in
          pose proof (Hbusy y) as Hb; cbn [busy] in Hb
      end;
  rewrite ?length_app; cbn [length busy] in *; lia.

Lemma pool_inv_step_worker h0 nw chunks s s' (i : nat) env :
  (forall p, p ∈ chunks -> is_Some (h0 !! p)) ->
  pool_inv h0 nw chunks s -> step_worker i env s = Some s' ->
  pool_inv h0 nw chunks s'.
Proof.
  intros Hvalid Hinv Hstep.
  pose proof (fun w c => held_elem_of h0 nw chunks s i w c Hinv) as Hheld.
  destruct Hinv as [Halive Hnum Hcap Hacc Hwg Hqc Hws Hrc Hwaited Hret Hex Hsp Hheap].
  unfold step_worker in Hstep.
  destruct s as [fs h nw' m ws wt q r g pk]. cbn in *. subst nw' pk.
  destruct (ws !! i) as [w|] eqn:Hw; [|done].
  pose proof (fun y => sum_over_insert busy ws i w y Hw) as Hbusy.
  pose proof (fun mu y => sum_over_insert (fun w => mu (held w)) ws i w y Hw) as Hmuheld.
  cbn beta in Hmuheld.
  assert (forall y, length (<[i := y]> ws) = length ws) as Hlen
    by (intros; apply length_insert).
  assert (forall y, y <> WExited -> WExited ∈ <[i := y]> ws -> WExited ∈ ws) as Hexi.
  { intros y Hy [Heq|Hin]%elem_of_insert_inv; [by subst y | done]. }
  pose proof (sum_over_lookup_le busy ws i w Hw) as Hbusy1.
  destruct w as [|chunk|chunk err|result| |], env as [env|]; try done.
  - (* receive *)
    unfold chan_recv in Hstep. destruct (buffer q) as [|chunk qbuf] eqn:Hbuf.
    + destruct (closed q) eqn:Hcl; simplify_eq.
      constructor; cbn; rewrite ?Hbuf, ?Hcl, ?Hlen; try done.
      * pool_account Hacc Hmuheld.
      * pool_busy Hbusy.
    + simplify_eq. constructor; cbn; rewrite ?Hbuf, ?Hlen; try done.
      * pool_account Hacc Hmuheld.
      * pool_busy Hbusy.
      * intros Hin%Hexi; [|done]. by destruct (Hex Hin).
  - (* download *)
    assert (is_Some (h !! chunk)) as Hc.
    { apply Hheap, Hvalid, (Hheld _ chunk eq_refl). by apply list_elem_of_singleton. }
    destruct (downloadChunk_is_Some env fs h chunk Hc) as [[[fs' h'] err] Hd].
    rewrite Hd in Hstep.
    assert (forall p, is_Some (h0 !! p) -> is_Some (h' !! p)) as Hheap'.
    { intros p Hp. eapply downloadChunk_heap; [exact Hd | by apply Hheap]. }
    destruct err; simplify_eq; constructor; cbn; rewrite ?Hlen; try done.
    + pool_account Hacc Hmuheld.
    + pool_busy Hbusy.
    + intros Hin%Hexi; [by apply Hex | done].
    + pool_account Hacc Hmuheld.
    + pool_busy Hbusy.
    + intros Hin%Hexi; [by apply Hex | done].
  - (* mark failed *)
    assert (is_Some (h !! chunk)) as [c Hc].
    { apply Hheap, Hvalid, (Hheld _ chunk eq_refl). by apply list_elem_of_singleton. }
    rewrite Hc in Hstep. simplify_eq. constructor; cbn; rewrite ?Hlen; try done.
    + pool_account Hacc Hmuheld.
    + pool_busy Hbusy.
    + intros Hin%Hexi; [by apply Hex | done].
    + intros p Hp. apply lookup_insert_is_Some'. right. by apply Hheap.
  - (* send *)
    assert (closed r = false) as Hcl.
    { rewrite Hrc. destruct wt; try done. cbn [busy] in *. lia. }
    unfold chan_send in Hstep. rewrite Hcl in Hstep.
    destruct (Nat.ltb_spec (length (buffer r)) (capacity r)); simplify_eq.
    constructor; cbn; rewrite ?Hlen; try done;
      try (pool_account Hacc Hmuheld); try (pool_busy Hbusy);
      try (intros Hin%Hexi; [by apply Hex | done]).
    + by rewrite <- Hrc.
    + intros Hr. destruct (Hret Hr) as [Hc _]. congruence.
  - (* done *)
    cbn [busy] in *.
    destruct (Z.ltb_spec (g - 1) 0); [lia|]. simplify_eq.
    constructor; cbn; rewrite ?Hlen; try done;
      try (pool_account Hacc Hmuheld); try (pool_busy Hbusy);
      try (intros Hin%Hexi; [by apply Hex | done]).
    destruct wt; try done; lia.
Qed.

Lemma pool_inv_step h0 nw chunks s s' a :
  nw <= int64_max ->
  (forall p, p ∈ chunks -> is_Some (h0 !! p)) ->
  pool_inv h0 nw chunks s -> step chunks a s = Some s' ->
  pool_inv h0 nw chunks s'.
Proof.
  intros Hnw Hvalid Hinv Hstep. unfold step in Hstep.
  destruct (panicked s); [done|].
  destruct a.
  - by eapply pool_inv_step_main.
  - by eapply pool_inv_step_worker.
  - by eapply pool_inv_step_worker.
  - by eapply pool_inv_step_waiter.
Qed.

Lemma pool_inv_run h0 nw chunks sched s s' :
  nw <= int64_max ->
  (forall p, p ∈ chunks -> is_Some (h0 !! p)) ->
  pool_inv h0 nw chunks s -> run chunks sched s = Some s' ->
  pool_inv h0 nw chunks s'.
Proof.
  intros Hnw Hvalid. revert s.
  induction sched as [|a sched IH]; intros s Hinv Hrun; cbn in Hrun.
  - by simplify_eq.
  - destruct (step chunks a s) as [s1|] eqn:Hstep; [|done].
    eapply IH; [|exact Hrun]. by eapply pool_inv_step.
Qed.

Lemma run_app chunks sched1 sched2 s :
  run chunks (sched1 ++ sched2) s =
    match run chunks sched1 s with
    | Some s1 => run chunks sched2 s1
    | None => None
    end.
Proof.
  revert s. induction sched1 as [|a sched1 IH]; intros s; cbn; [done|].
  destruct (step chunks a s); [apply IH | done].
Qed.

(** ** Every step uses up potential *)

Lemma step_potential h0 nw chunks s s' a :
  nw <= int64_max ->
  pool_inv h0 nw chunks s -> step chunks a s = Some s' ->
  (potential chunks s' < potential chunks s)%nat.
Proof.
  intros Hnw Hinv Hstep. unfold step in Hstep.
  pose proof (inv_spawned _ _ _ _ Hinv) as Hsp.
  pose proof (inv_numWorkers _ _ _ _ Hinv) as Hnum.
  destruct s as [fs h nw' m ws wt q r g pk]. cbn in *. subst nw'.
  destruct pk; [done|]. unfold potential.
  destruct a as [|i|i env|].
  - unfold step_main in Hstep. cbn in Hstep.
    destruct m as [j|rest|chunk rest| | |rs|rs]; cbn in Hstep.
    + destruct (Z.ltb_spec j nw); simplify_eq; cbn.
      * rewrite sum_over_snoc. cbn [worker_potential].
        assert (add64 j 1 = j + 1) as -> by (int64_simpl; lia). lia.
      * lia.
    + destruct rest; simplify_eq; cbn; lia.
    + unfold chan_send in Hstep. repeat case_match; simplify_eq; cbn;
        rewrite ?length_app; cbn; lia.
    + unfold chan_close in Hstep. repeat case_match; simplify_eq; cbn; lia.
    + simplify_eq. cbn. lia.
    + unfold chan_recv in Hstep. repeat case_match; simplify_eq; cbn in *;
        repeat match goal with H : buffer _ = _ |- _ => rewrite H end; cbn; lia.
    + done.
  - unfold step_worker in Hstep. cbn in Hstep.
    destruct (ws !! i) as [w|] eqn:Hw; [|done].
    pose proof (fun y => sum_over_insert worker_potential ws i w y Hw) as Hpot.
    destruct w; try done; unfold chan_recv, chan_send in Hstep;
      repeat case_match; simplify_eq; cbn;
      repeat match goal with H : buffer _ = _ |- _ => rewrite H end;
      rewrite ?length_app; cbn;
      match goal with
      | |- context [<[_ := ?y]> _] => specialize (Hpot y)
      | _ => idtac
      end; cbn in Hpot; lia.
  - unfold step_worker in Hstep. cbn in Hstep.
    destruct (ws !! i) as [w|] eqn:Hw; [|done].
    pose proof (fun y => sum_over_insert worker_potential ws i w y Hw) as Hpot.
    destruct w; try done;
      repeat case_match; simplify_eq; cbn;
      match goal with
      | |- context [<[_ := ?y]> _] => specialize (Hpot y)
      | _ => idtac
      end; cbn in Hpot; lia.
  - unfold step_waiter, chan_close in Hstep. cbn in Hstep.
    repeat case_match; simplify_eq; cbn; lia.
Qed.

Lemma run_bound h0 nw chunks sched s s' :
  nw <= int64_max ->
  (forall p, p ∈ chunks -> is_Some (h0 !! p)) ->
  pool_inv h0 nw chunks s -> run chunks sched s = Some s' ->
  (length sched + potential chunks s' <= potential chunks s)%nat.
Proof.
  intros Hnw Hvalid. revert s.
  induction sched as [|a sched IH]; intros s Hinv Hrun; cbn in Hrun.
  - simplify_eq. cbn. lia.
  - destruct (step chunks a s) as [s1|] eqn:Hstep; [|done].
    pose proof (step_potential _ _ _ _ _ _ Hnw Hinv Hstep).
    pose proof (pool_inv_step _ _ _ _ _ _ Hnw Hvalid Hinv Hstep) as Hinv1.
    specialize (IH s1 Hinv1 Hrun). cbn [length]. lia.
Qed.

Lemma potential_init fs h nw chunks :
  potential chunks (pool_init fs h nw chunks) = pool_bound nw chunks.
Proof.
  unfold potential, pool_bound. cbn. rewrite sum_over_nil, Z.sub_0_r. lia.
Qed.

(** ** The pool is never stuck before it returns *)

Lemma sum_over_pos {A} (f : A -> nat) (l : list A) :
  (0 < sum_over f l)%nat -> exists i x, l !! i = Some x /\ (0 < f x)%nat.
Proof.
  induction l as [|z l IH]; [rewrite sum_over_nil; lia|].
  rewrite sum_over_cons. intros H.
  destruct (decide (0 < f z)%nat) as [Hz|Hz].
  - by exists 0%nat, z.
  - destruct IH as (i & x & Hx & Hfx); [lia|]. by exists (S i), x.
Qed.

Lemma pool_progress h0 nw chunks s :
  1 <= nw ->
  pool_inv h0 nw chunks s -> returned (main s) = false ->
  exists a s', step chunks a s = Some s'.
Proof.
  intros Hnw Hinv Hnr.
  pose proof (inv_account _ _ _ _ Hinv _ additive_length) as Hlen.
  destruct Hinv as [Halive Hnum Hcap Hacc Hwg Hqc Hws Hrc Hwaited Hret Hex Hsp Hheap].
  destruct s as [fs h nw' m ws wt q r g pk]. cbn in *. subst nw' pk.
  assert (forall i w, ws !! i = Some w -> busy w = 1%nat ->
            exists a s', step chunks a
              (mkPool fs h nw m ws wt q r g false) = Some s') as Hbusy.
  { intros i w Hw Hb.
    pose proof (sum_over_lookup_le (fun w => length (held w)) ws i w Hw) as Hle.
    cbn beta in Hle.
    destruct w as [|chunk|chunk err|result| |]; try done.
    - exists (ActFetch i quiet_env). unfold step, step_worker. cbn. rewrite Hw.
      repeat case_match; eauto.
    - exists (ActWorker i). unfold step, step_worker. cbn. rewrite Hw.
      repeat case_match; eauto.
    - assert (is_Some (chan_send r result)) as [out Hout].
      { unfold chan_send. destruct (closed r); [eauto|].
        destruct (Nat.ltb_spec (length (buffer r)) (capacity r)); [eauto|].
        cbn [held length] in Hle. rewrite !length_fmap in Hlen. lia. }
      exists (ActWorker i). unfold step, step_worker. cbn -[chan_send].
      rewrite Hw, Hout. destruct out; eauto.
    - exists (ActWorker i). unfold step, step_worker. cbn. rewrite Hw.
      repeat case_match; eauto. }
  destruct m as [i|rest|chunk rest| | |rs|rs]; try done.
  - exists ActMain. unfold step, step_main. cbn. destruct (i <? nw); eauto.
  - exists ActMain. unfold step, step_main. cbn. destruct rest; eauto.
  - assert (is_Some (chan_send q chunk)) as [out Hout].
    { unfold chan_send. destruct (closed q); [eauto|].
      destruct (Nat.ltb_spec (length (buffer q)) (capacity q)); [eauto|].
      cbn [pending length] in Hlen. lia. }
    exists ActMain. unfold step, step_main. cbn -[chan_send].
    rewrite Hout. destruct out; eauto.
  - exists ActMain. unfold step, step_main, chan_close. cbn.
    destruct (closed q); eauto.
  - exists ActMain. unfold step, step_main. cbn. eauto.
  - destruct (buffer r) as [|result rbuf] eqn:Hbuf.
    2:{ exists ActMain. unfold step, step_main, chan_recv. cbn. rewrite Hbuf. eauto. }
    destruct (closed r) eqn:Hcl.
    { exists ActMain. unfold step, step_main, chan_recv. cbn. rewrite Hbuf, Hcl. eauto. }
    destruct wt; try done.
    2:{ exists ActWaiter. unfold step, step_waiter, chan_close. cbn.
        rewrite Hcl. eauto. }
    destruct (decide (g = 0)) as [Hg|Hg].
    { exists ActWaiter. unfold step, step_waiter. cbn.
      destruct (Z.eqb_spec g 0); [eauto | done]. }
    cbn [enqueueing] in Hwg.
    destruct (decide (0 < sum_over busy ws)%nat) as [Hb|Hb].
    { destruct (sum_over_pos busy ws Hb) as (i & w & Hw & Hbw).
      apply (Hbusy i w Hw). destruct w; cbn in *; lia. }
    destruct (buffer q) as [|chunk qbuf] eqn:Hq; [cbn in Hwg; lia|].
    assert (exists w, ws !! 0%nat = Some w) as [w Hw].
    { destruct ws as [|w ws]; [cbn in Hsp; lia | by exists w]. }
    assert (w = WReceive) as ->.
    { pose proof (sum_over_lookup_le busy ws 0 w Hw).
      destruct w; cbn in *; try lia; try done.
      destruct Hex as [_ Hnil]; [by eapply list_elem_of_lookup_2 | done]. }
    exists (ActWorker 0). unfold step, step_worker, chan_recv. cbn.
    rewrite Hw, Hq. eauto.
Qed.

Lemma pool_completes h0 nw chunks (n : nat) s :
  1 <= nw <= int64_max ->
  (forall p, p ∈ chunks -> is_Some (h0 !! p)) ->
  (potential chunks s <= n)%nat ->
  pool_inv h0 nw chunks s ->
  exists sched s', run chunks sched s = Some s' /\ returned (main s') = true.
Proof.
  intros Hnw Hvalid. revert s. induction n as [|n IH]; intros s Hpot Hinv.
  - destruct (returned (main s)) eqn:Hr; [by exists [], s|].
    destruct (pool_progress h0 nw chunks s ltac:(lia) Hinv Hr) as (a & s1 & Hstep).
    pose proof (step_potential h0 nw chunks s s1 a ltac:(lia) Hinv Hstep). lia.
  - destruct (returned (main s)) eqn:Hr; [by exists [], s|].
    destruct (pool_progress h0 nw chunks s ltac:(lia) Hinv Hr) as (a & s1 & Hstep).
    pose proof (step_potential h0 nw chunks s s1 a ltac:(lia) Hinv Hstep).
    destruct (IH s1) as (sched & s' & Hrun & Hret).
    + lia.
    + eapply pool_inv_step; [| |exact Hinv|exact Hstep]; [lia | done].
    + exists (a :: sched), s'. cbn. by rewrite Hstep.
Qed.

Lemma idle_workers_hold_nothing mu (ws : list worker_state) :
  additive mu -> sum_over busy ws = 0%nat ->
  sum_over (fun w => mu (held w)) ws = 0%nat.
Proof.
  intros [H0 _]. induction ws as [|w ws IH]; [done|].
  rewrite !sum_over_cons. intros Hb.
  rewrite IH by lia. destruct w; cbn in *; lia.
Qed.

(** When [StartWorkerPool] has returned, what it returns holds one result
    for each chunk it was given. *)
Lemma pool_inv_returned h0 nw chunks s rs :
  pool_inv h0 nw chunks s -> main s = MReturn rs ->
  Result_Chunk <$> rs ≡ₚ chunks /\ length rs = length chunks.
Proof.
  intros Hinv Hm.
  assert (forall mu, additive mu -> mu chunks = mu (Result_Chunk <$> rs)) as Hsame.
  { intros mu Hmu.
    destruct Hinv as [Halive Hnum Hcap Hacc Hwg Hqc Hws Hrc Hwaited Hret Hex Hsp Hheap].
    specialize (Hacc mu Hmu). rewrite Hm in *. cbn in *.
    destruct (Hret eq_refl) as [Hcl Hbuf]. rewrite Hcl in Hrc.
    destruct (waiter s); try done. rewrite Hwaited in Hwg.
    assert (buffer (jobQueue s) = []) as Hq
      by (destruct (buffer (jobQueue s)); [done | cbn in Hwg; lia]).
    rewrite Hq, Hbuf in *. cbn in Hwg.
    rewrite (idle_workers_hold_nothing mu) in Hacc by (done || lia).
    rewrite fmap_nil, (proj1 Hmu) in Hacc. lia. }
  split.
  - apply occ_permutation. intros p. symmetry. apply Hsame, additive_occ.
  - rewrite (Hsame _ additive_length). by rewrite length_fmap.
Qed.

(** C6. With at least one worker, [StartWorkerPool] comes back only with
    one [Result] for each input chunk (the chunks of the results are the
    input chunks, each as often as it was given, and there are as many
    results as chunks) and with a nil error, whatever the fetches met; it
    never panics, no reachable state before the return is stuck, a run has
    at most [pool_bound] steps, and every run extends to one that
    returns. *)
Theorem StartWorkerPool_results (fs : filesys) (h : heap) (nw : Z)
    (chunks : list nat) :
  1 <= nw <= int64_max ->
  (forall p, p ∈ chunks -> is_Some (h !! p)) ->
  (forall sched, StartWorkerPool sched fs h nw chunks <> Panic) /\
  (forall sched fs' h' rs err,
     StartWorkerPool sched fs h nw chunks = Ret (fs', h', rs, err) ->
     err = None /\ Result_Chunk <$> rs ≡ₚ chunks /\ length rs = length chunks) /\
  (forall sched s,
     run chunks sched (pool_init fs h nw chunks) = Some s ->
     (length sched <= pool_bound nw chunks)%nat /\
     (returned (main s) = false -> exists a s', step chunks a s = Some s') /\
     exists sched' out,
       StartWorkerPool (sched ++ sched') fs h nw chunks = Ret out).
Proof.
  intros Hnw Hvalid.
  assert (forall sched s, run chunks sched (pool_init fs h nw chunks) = Some s ->
            pool_inv h nw chunks s) as Hreach.
  { intros sched s Hrun. eapply pool_inv_run; [| |apply pool_inv_init|exact Hrun];
      [lia | done]. }
  split; [|split].
  - intros sched. unfold StartWorkerPool.
    destruct (run chunks sched (pool_init fs h nw chunks)) as [s|] eqn:Hrun; [|done].
    rewrite (inv_alive _ _ _ _ (Hreach _ _ Hrun)). by destruct (main s).
  - intros sched fs' h' rs err. unfold StartWorkerPool.
    destruct (run chunks sched (pool_init fs h nw chunks)) as [s|] eqn:Hrun; [|done].
    rewrite (inv_alive _ _ _ _ (Hreach _ _ Hrun)).
    destruct (main s) eqn:Hm; try done. intros ?; simplify_eq.
    split; [done|]. eapply pool_inv_returned; [by eapply Hreach | exact Hm].
  - intros sched s Hrun. pose proof (Hreach _ _ Hrun) as Hinv.
    split; [|split].
    + pose proof (run_bound h nw chunks sched _ s ltac:(lia) Hvalid
                    (pool_inv_init fs h nw chunks) Hrun) as Hb.
      rewrite potential_init in Hb. lia.
    + intros Hr. eapply pool_progress; [|exact Hinv|exact Hr]. lia.
    + destruct (pool_completes h nw chunks _ s Hnw Hvalid (le_n _) Hinv)
        as (sched' & s' & Hrun' & Hret).
      exists sched'. unfold StartWorkerPool. rewrite run_app, Hrun, Hrun'.
      assert (pool_inv h nw chunks s') as Hinv'.
      { eapply pool_inv_run; [| |exact Hinv|exact Hrun']; [lia | done]. }
      rewrite (inv_alive _ _ _ _ Hinv').
      destruct (main s'); try done. eauto.
Qed.

Lemma StartWorkerPool_returns sched fs h nw chunks fs' h' rs err :
  1 <= nw <= int64_max ->
  (forall p, p ∈ chunks -> is_Some (h !! p)) ->
  StartWorkerPool sched fs h nw chunks = Ret (fs', h', rs, err) ->
  err = None /\ Result_Chunk <$> rs ≡ₚ chunks /\
  (forall p, is_Some (h !! p) -> is_Some (h' !! p)).
Proof.
  intros Hnw Hvalid. unfold StartWorkerPool.
  destruct (run chunks sched (pool_init fs h nw chunks)) as [s|] eqn:Hrun; [|done].
  assert (pool_inv h nw chunks s) as Hinv.
  { eapply pool_inv_run; [| |apply pool_inv_init|exact Hrun]; [lia | done]. }
  rewrite (inv_alive _ _ _ _ Hinv).
  destruct (main s) eqn:Hm; try done. intros ?; simplify_eq.
  split; [done|]. split; [by eapply pool_inv_returned|].
  apply (inv_heap _ _ _ _ Hinv).
Qed.

Lemma StartWorkerPool_no_panic sched fs h nw chunks :
  1 <= nw <= int64_max ->
  (forall p, p ∈ chunks -> is_Some (h !! p)) ->
  StartWorkerPool sched fs h nw chunks <> Panic.
Proof.
  intros Hnw Hvalid. unfold StartWorkerPool.
  destruct (run chunks sched (pool_init fs h nw chunks)) as [s|] eqn:Hrun; [|done].
  assert (pool_inv h nw chunks s) as Hinv.
  { eapply pool_inv_run; [| |apply pool_inv_init|exact Hrun]; [lia | done]. }
  rewrite (inv_alive _ _ _ _ Hinv). by destruct (main s).
Qed.

Lemma StartWorkerPool_can_return fs h nw chunks :
  1 <= nw <= int64_max ->
  (forall p, p ∈ chunks -> is_Some (h !! p)) ->
  exists sched out, StartWorkerPool sched fs h nw chunks = Ret out.
Proof.
  intros Hnw Hvalid.
  destruct (pool_completes h nw chunks _ (pool_init fs h nw chunks) Hnw Hvalid
              (le_n _) (pool_inv_init fs h nw chunks))
    as (sched & s' & Hrun & Hret).
  exists sched. unfold StartWorkerPool. rewrite Hrun.
  assert (pool_inv h nw chunks s') as Hinv.
  { eapply pool_inv_run; [| |apply pool_inv_init|exact Hrun]; [lia | done]. }
  rewrite (inv_alive _ _ _ _ Hinv). destruct (main s'); try done. eauto.
Qed.

(** ** The retry coordinator *)

Lemma ResetForRetry_not_eligible fs c maxRetries :
  retry_eligible maxRetries (ResetForRetry fs c).2 = false.
Proof. reflexivity. Qed.

Lemma RetryFailedChunks_select_acc fs h chunks maxRetries acc :
  RetryFailedChunks_select fs h chunks maxRetries acc =
    match RetryFailedChunks_select fs h chunks maxRetries [] with
    | Some (fs', h', sel) => Some (fs', h', acc ++ sel)
    | None => None
    end.
Proof.
  revert fs h acc. induction chunks as [|p rest IH]; intros fs h acc; cbn.
  - by rewrite app_nil_r.
  - destruct (h !! p) as [c|]; [|done].
    destruct (Failed c && (RetryCount c <? maxRetries)).
    + rewrite (IH _ _ (acc ++ [p])), (IH _ _ [p]).
      destruct (RetryFailedChunks_select _ _ rest maxRetries [])
        as [[[fs' h'] sel]|]; [|done].
      by rewrite <- app_assoc.
    + apply IH.
Qed.

Lemma temp_files_insert (h : heap) (p : nat) (c : Chunk) (sel : list nat) :
  p ∉ sel -> temp_files (<[p := c]> h) sel = temp_files h sel.
Proof.
  unfold temp_files. induction sel as [|q sel IH]; intros Hp; [done|].
  apply not_elem_of_cons in Hp as [Hne Hp]. cbn.
  rewrite lookup_insert_ne by done. by rewrite IH.
Qed.

Lemma temp_files_cons (h : heap) (p : nat) (c : Chunk) (sel : list nat) :
  h !! p = Some c -> temp_files h (p :: sel) = TempFile c :: temp_files h sel.
Proof. intros Hc. unfold temp_files. cbn. by rewrite Hc. Qed.

Lemma RetryFailedChunks_select_spec fs h chunks maxRetries :
  (forall p, p ∈ chunks -> is_Some (h !! p)) ->
  exists fs' h' sel,
    RetryFailedChunks_select fs h chunks maxRetries [] = Some (fs', h', sel) /\
    NoDup sel /\ (length sel <= length chunks)%nat /\
    (forall p, p ∈ sel <->
       p ∈ chunks /\ exists c, h !! p = Some c /\ retry_eligible maxRetries c = true) /\
    (forall p, p ∉ sel -> h' !! p = h !! p) /\
    (forall p c, p ∈ sel -> h !! p = Some c -> h' !! p = Some (ResetForRetry fs c).2) /\
    (forall path,
       fs' !! path = if decide (path ∈ temp_files h sel) then None else fs !! path).
Proof.
  revert fs h. induction chunks as [|p rest IH]; intros fs h Hvalid.
  - exists fs, h, []. cbn. split; [done|]. split; [constructor|]. split; [lia|].
    split; [|split; [done|split]].
    + intros p. split; [by intros ?%elem_of_nil | by intros [?%elem_of_nil _]].
    + by intros p c ?%elem_of_nil.
    + intros path. case_decide as Hp; [by apply elem_of_nil in Hp | done].
  - destruct (Hvalid p ltac:(left)) as [c Hc]. cbn [RetryFailedChunks_select].
    rewrite Hc. fold (retry_eligible maxRetries c).
    destruct (retry_eligible maxRetries c) eqn:Hel.
    + destruct (ResetForRetry fs c) as [fs1 c1] eqn:Hreset.
      assert (c1 = (ResetForRetry fs c).2) as Hc1 by (by rewrite Hreset).
      assert (fs1 = (ResetForRetry fs c).1) as Hfs1 by (by rewrite Hreset).
      destruct (IH fs1 (<[p := c1]> h))
        as (fs' & h' & sel & Hsel & Hnd & Hlen & Hin & Hout & Hres & Hfs).
      { intros q Hq. apply lookup_insert_is_Some'. right. apply Hvalid. by right. }
      assert (p ∉ sel) as Hp.
      { intros (_ & c' & Hc' & Hel')%Hin. rewrite lookup_insert_eq in Hc'.
        by simplify_eq. }
      rewrite RetryFailedChunks_select_acc, Hsel.
      exists fs', h', (p :: sel). split; [done|].
      split; [by constructor|]. split; [cbn; lia|].
      split; [|split; [|split]].
      * intros q. rewrite elem_of_cons, Hin. split.
        -- intros [->|(Hq & c' & Hc' & Hel')]; [split; [by left | eauto]|].
           destruct (decide (q = p)) as [->|Hne].
           { rewrite lookup_insert_eq in Hc'. by simplify_eq. }
           rewrite lookup_insert_ne in Hc' by done. split; [by right | eauto].
        -- intros ([->|Hq]%elem_of_cons & c' & Hc' & Hel'); [by left|].
           destruct (decide (q = p)) as [->|Hne]; [by left|]. right.
           split; [done|]. exists c'. by rewrite lookup_insert_ne.
      * intros q [Hne Hq]%not_elem_of_cons.
        rewrite Hout by done. by rewrite lookup_insert_ne.
      * intros q c' [->|Hq]%elem_of_cons Hc'.
        -- simplify_eq. rewrite Hout by done. by rewrite lookup_insert_eq.
        -- assert (q <> p) as Hne by (by intros ->).
           rewrite (Hres q c' Hq); [done | by rewrite lookup_insert_ne].
      * intros path. rewrite Hfs, temp_files_insert by done.
        rewrite (temp_files_cons h p c sel Hc), Hfs1, ResetForRetry_fs.
        repeat case_decide; try done.
        -- exfalso. match goal with H : path ∉ _ :: _ |- _ => apply H end. by right.
        -- exfalso. match goal with H : path ∉ _ :: _ |- _ => apply H end.
           subst path. by left.
        -- exfalso.
           match goal with H : path ∈ _ :: _ |- _ => apply elem_of_cons in H as [?|?] end;
             done.
    + destruct (IH fs h)
        as (fs' & h' & sel & Hsel & Hnd & Hlen & Hin & Hout & Hres & Hfs).
      { intros q Hq. apply Hvalid. by right. }
      rewrite Hsel. exists fs', h', sel. split; [done|]. split; [done|].
      split; [cbn; lia|]. split; [|done].
      intros q. rewrite Hin. split.
      * intros (Hq & Hc'). split; [by right | done].
      * intros ([->|Hq]%elem_of_cons & c' & Hc' & Hel'); [congruence|]. eauto.
Qed.

Lemma RetryFailedChunks_check_spec (h : heap) (rs : list Result) :
  (forall r, r ∈ rs -> is_Some (h !! Result_Chunk r)) ->
  exists err, RetryFailedChunks_check h rs = Some err /\
    (err <> None <-> exists r, r ∈ rs /\ Result_Error r <> None).
Proof.
  induction rs as [|r rs IH]; intros Hvalid.
  - exists None. split; [done|]. split; [done|]. by intros (r & ?%elem_of_nil & _).
  - cbn [RetryFailedChunks_check]. destruct (Result_Error r) as [e|] eqn:He.
    + destruct (Hvalid r ltac:(left)) as [c ->].
      eexists. split; [done|]. split; [|done]. intros _. exists r.
      split; [by left | by rewrite He].
    + destruct IH as (err & Herr & Hiff). { intros r' Hr'. apply Hvalid. by right. }
      exists err. split; [done|]. rewrite Hiff. split.
      * intros (r' & Hr' & He'). exists r'. split; [by right | done].
      * intros (r' & [->|Hr']%elem_of_cons & He'); [congruence | eauto].
Qed.

(** C5. [RetryFailedChunks] resets ([Downloaded] to 0, [Failed] to false,
    temp file removed) the chunks that are failed with
    [RetryCount < maxRetries], those and no others, before it fetches them
    again. When no chunk qualifies it returns nil and every chunk and file
    is as it was, exhausted failures included. Otherwise it starts the pool
    on the selected chunks with as many workers as there are of them, and
    its error is non-nil exactly when a result of that run carries an
    error. Such a run never panics and can always run to its return. *)
Theorem RetryFailedChunks_spec (fs : filesys) (h : heap) (chunks : list nat)
    (maxRetries : Z) :
  (forall p, p ∈ chunks -> is_Some (h !! p)) ->
  Z.of_nat (length chunks) <= int64_max ->
  exists fs1 h1 failedChunks,
    RetryFailedChunks_select fs h chunks maxRetries [] = Some (fs1, h1, failedChunks) /\
    NoDup failedChunks /\
    (forall p, p ∈ failedChunks <->
       p ∈ chunks /\
       exists c, h !! p = Some c /\ Failed c = true /\ RetryCount c < maxRetries) /\
    (forall p c, p ∈ failedChunks -> h !! p = Some c ->
       exists c', h1 !! p = Some c' /\ c' = (ResetForRetry fs c).2 /\
                  Downloaded c' = 0 /\ Failed c' = false) /\
    (forall p, p ∉ failedChunks -> h1 !! p = h !! p) /\
    (forall path,
       fs1 !! path =
         if decide (path ∈ temp_files h failedChunks) then None else fs !! path) /\
    (failedChunks = [] ->
       forall sched, RetryFailedChunks sched fs h chunks maxRetries = Ret (fs, h, None)) /\
    (failedChunks <> [] ->
       (forall sched,
          match StartWorkerPool sched fs1 h1 (Z.of_nat (length failedChunks))
                  failedChunks with
          | Ret (fs2, h2, results, _) =>
              Result_Chunk <$> results ≡ₚ failedChunks /\
              exists err,
                RetryFailedChunks sched fs h chunks maxRetries = Ret (fs2, h2, err) /\
                (err <> None <-> exists r, r ∈ results /\ Result_Error r <> None)
          | Panic => False
          | Unfinished =>
              RetryFailedChunks sched fs h chunks maxRetries = Unfinished
          end) /\
       exists sched out,
         RetryFailedChunks sched fs h chunks maxRetries = Ret out).
Proof.
  intros Hvalid Hlen.
  destruct (RetryFailedChunks_select_spec fs h chunks maxRetries Hvalid)
    as (fs1 & h1 & sel & Hsel & Hnd & Hle & Hin & Hout & Hres & Hfs).
  exists fs1, h1, sel. split; [done|]. split; [done|].
  assert (forall p, is_Some (h !! p) -> is_Some (h1 !! p)) as Hdom.
  { intros p [c Hc]. destruct (decide (p ∈ sel)) as [Hp|Hp].
    - rewrite (Hres p c Hp Hc). eauto.
    - rewrite Hout by done. eauto. }
  assert (forall p, p ∈ sel -> is_Some (h1 !! p)) as Hvalid1.
  { intros p Hp. apply Hdom, Hvalid. by apply Hin in Hp as [? _]. }
  split; [|split; [|split; [done|split; [done|split]]]].
  - intros p. rewrite Hin. unfold retry_eligible. split.
    + intros (Hp & c & Hc & [Hf Hr%Z.ltb_lt]%andb_prop). eauto 6.
    + intros (Hp & c & Hc & Hf & Hr). split; [done|]. exists c.
      split; [done|]. rewrite Hf. by apply Z.ltb_lt.
  - intros p c Hp Hc. eexists. split; [by apply Hres|]. done.
  - intros ->. intros sched. unfold RetryFailedChunks. rewrite Hsel. cbn.
    do 3 f_equal.
    + apply map_eq. intros path. rewrite Hfs.
      case_decide as Hp; [by apply elem_of_nil in Hp | done].
    + apply map_eq. intros p. apply Hout. by intros ?%elem_of_nil.
  - intros Hne.
    assert (1 <= Z.of_nat (length sel) <= int64_max) as Hnw.
    { destruct sel; [done|]. cbn [length] in *. lia. }
    assert ((length sel =? 0)%nat = false) as Hnz
      by (destruct sel; [done | reflexivity]).
    split.
    + intros sched. unfold RetryFailedChunks. rewrite Hsel, Hnz.
      pose proof (StartWorkerPool_no_panic sched fs1 h1 _ sel Hnw Hvalid1) as Hnp.
      destruct (StartWorkerPool sched fs1 h1 (Z.of_nat (length sel)) sel)
        as [[[[fs2 h2] rs] err]| |] eqn:Hpool; [|done|done].
      destruct (StartWorkerPool_returns _ _ _ _ _ _ _ _ _ Hnw Hvalid1 Hpool)
        as (-> & Hperm & Hheap).
      split; [done|].
      destruct (RetryFailedChunks_check_spec h2 rs) as (err & Hcheck & Hiff).
      { intros r Hr. apply Hheap, Hvalid1. rewrite <- Hperm.
        by apply list_elem_of_fmap_2. }
      exists err. by rewrite Hcheck.
    + destruct (StartWorkerPool_can_return fs1 h1 _ sel Hnw Hvalid1)
        as (sched & [[[fs2 h2] rs] err] & Hpool).
      destruct (StartWorkerPool_returns _ _ _ _ _ _ _ _ _ Hnw Hvalid1 Hpool)
        as (-> & Hperm & Hheap).
      destruct (RetryFailedChunks_check_spec h2 rs) as (err & Hcheck & Hiff).
      { intros r Hr. apply Hheap, Hvalid1. rewrite <- Hperm.
        by apply list_elem_of_fmap_2. }
      exists sched. unfold RetryFailedChunks. rewrite Hsel, Hnz, Hpool, Hcheck. eauto.
Qed.

(** ** The model at work *)

(** The plan of the unit test: 10000 bytes in 4 chunks. *)
Example CalculateChunks_10000_4 :
  plan_ranges (CalculateChunks join_slash "https://example.com/test.zip" 10000 4 "/tmp")
  = inr [(0, 0, 2499, 2500); (1, 2500, 4999, 2500);
         (2, 5000, 7499, 2500); (3, 7500, 9999, 2500)].
Proof. by vm_compute. Qed.

(** Ten bytes in three chunks: the last one takes the remainder. *)
Example CalculateChunks_10_3 :
  plan_ranges (CalculateChunks join_slash "u" 10 3 "/tmp")
  = inr [(0, 0, 2, 3); (1, 3, 5, 3); (2, 6, 9, 4)].
Proof. by vm_compute. Qed.

Example CalculateChunks_temp_file :
  TempFile <$> (NewChunk join_slash 1 "u" 1000 2000 "/tmp/test" :: [])
  = ["/tmp/test/chunk_1"].
Proof. by vm_compute. Qed.

Example CalculateChunks_invalid :
  CalculateChunks join_slash "u" 0 4 "/tmp" = inl (ErrInvalidFileSize 0).
Proof. reflexivity. Qed.

Example StartWorkerPool_failed_fetch :
  pool_outcome
    (StartWorkerPool example_failed_sched ∅ {[0%nat := example_chunk]} 1 [0%nat])
  = Some ([mkResult 0 (Some (ErrSendRequest (ErrExternal 111)))], None,
          Some (2, false, true, 2), Some []).
Proof. by vm_compute. Qed.

Example StartWorkerPool_served_fetch :
  pool_outcome
    (StartWorkerPool example_sched ∅
       {[0%nat := (ResetForRetry ∅ example_chunk).2]} 1 [0%nat])
  = Some ([mkResult 0 None], None, Some (4, true, false, 1),
          Some [Byte.x01; Byte.x02; Byte.x03; Byte.x04]).
Proof. by vm_compute. Qed.

(** A schedule that stops early is not a run of the pool to its end. *)
Example StartWorkerPool_cut_short :
  StartWorkerPool (take 8 example_sched) ∅ {[0%nat := example_chunk]} 1 [0%nat]
  = Unfinished.
Proof. by vm_compute. Qed.

(** Without a worker the collecting loop waits for ever: after the main
    goroutine and the waiter have done what they can, nobody can move. *)
Example StartWorkerPool_no_worker_stuck :
  match run [0%nat] [ActMain; ActMain; ActMain; ActMain; ActMain; ActMain]
          (pool_init ∅ {[0%nat := example_chunk]} 0 [0%nat]) with
  | Some s =>
      (step [0%nat] ActMain s, step [0%nat] ActWaiter s, workers s, returned (main s))
  | None => (None, None, [], true)
  end = (None, None, [], false).
Proof. by vm_compute. Qed.

(** The retry pass on a failed chunk that the server now serves. *)
Example RetryFailedChunks_served :
  match RetryFailedChunks example_sched {["/tmp/chunk_0" := [Byte.x09]]}
          {[0%nat := example_chunk]} [0%nat] 3 with
  | Ret (fs, h, err) =>
      Some (err, (fun c => (Downloaded c, Completed c, Failed c, RetryCount c)) <$> h !! 0%nat)
  | _ => None
  end = Some (None, Some (4, true, false, 1)).
Proof. by vm_compute. Qed.

(** The retry pass when the chunk fails again. *)
Example RetryFailedChunks_failed_again :
  match RetryFailedChunks example_failed_sched ∅ {[0%nat := example_chunk]} [0%nat] 3 with
  | Ret (fs, h, err) =>
      Some (err, (fun c => (Downloaded c, Failed c, RetryCount c)) <$> h !! 0%nat)
  | _ => None
  end = Some (Some (ErrChunkFailed 0 (ErrSendRequest (ErrExternal 111))),
              Some (0, true, 2)).
Proof. by vm_compute. Qed.

(** Retries used up: nothing is selected, nothing changes. *)
Example RetryFailedChunks_exhausted :
  RetryFailedChunks [] {["/tmp/chunk_0" := [Byte.x09]]} {[0%nat := example_chunk]}
    [0%nat] 1
  = Ret ({["/tmp/chunk_0" := [Byte.x09]]}, {[0%nat := example_chunk]}, None).
Proof. reflexivity. Qed.

Example MergeFiles_A_then_B :
  merge_outcome "out" (MergeFiles 4 example_files "out" ["a"; "b"])
  = Some (Some [Byte.x01; Byte.x02; Byte.x03; Byte.x04; Byte.x05], None).
Proof. by vm_compute. Qed.

Example MergeFiles_B_then_A :
  merge_outcome "out" (MergeFiles 4 example_files "out" ["b"; "a"])
  = Some (Some [Byte.x03; Byte.x04; Byte.x05; Byte.x01; Byte.x02], None).
Proof. by vm_compute. Qed.

(** An input that is not there: the merge stops with the error; what was
    copied before stays in the output. *)
Example MergeFiles_missing_input :
  merge_outcome "out" (MergeFiles 4 example_files "out" ["a"; "c"; "b"])
  = Some (Some [Byte.x01; Byte.x02], Some (ErrOpenFile "c" (ErrExternal 2))).
Proof. by vm_compute. Qed.

(** The output given as its own input: creating the output empties it
    before it is read. *)
Example MergeFiles_output_as_input :
  merge_outcome "a" (MergeFiles 4 example_files "a" ["a"])
  = Some (Some [], None).
Proof. by vm_compute. Qed.

Lemma StartWorkerPool_results_witness :
  1 <= 1 <= int64_max /\
  forall sched,
    StartWorkerPool sched ∅ {[0%nat := example_chunk]} 1 [0%nat] <> Panic.
Proof.
  assert (1 <= 1 <= int64_max) as Hnw by (unfold int64_max; lia).
  assert (forall p : nat, p ∈ [0%nat] ->
            is_Some (({[0%nat := example_chunk]} : heap) !! p)) as Hvalid.
  { intros p Hp. apply list_elem_of_singleton in Hp. subst p. by eexists. }
  split; [exact Hnw|].
  exact (proj1 (StartWorkerPool_results ∅ {[0%nat := example_chunk]} 1 [0%nat]
                  Hnw Hvalid)).
Defined.

Lemma RetryFailedChunks_spec_witness :
  exists fs1 h1 failedChunks,
    RetryFailedChunks_select ∅ {[0%nat := example_chunk]} [0%nat] 3 []
      = Some (fs1, h1, failedChunks) /\
    NoDup failedChunks.
Proof.
  assert (forall p : nat, p ∈ [0%nat] ->
            is_Some (({[0%nat := example_chunk]} : heap) !! p)) as Hvalid.
  { intros p Hp. apply list_elem_of_singleton in Hp. subst p. by eexists. }
  assert (Z.of_nat (length [0%nat]) <= int64_max) as Hlen
    by (unfold int64_max; cbn; lia).
  destruct (RetryFailedChunks_spec ∅ {[0%nat := example_chunk]} [0%nat] 3 Hvalid Hlen)
    as (fs1 & h1 & failedChunks & Hsel & Hnd & _).
  exists fs1, h1, failedChunks. split; [exact Hsel | exact Hnd].
Defined.
